(** * The ngtsc translator: output-AST to TypeScript-AST translation

    A shallow embedding of
    [packages/compiler-cli/src/ngtsc/translator/src/translator.ts]:
    the [Context] flag, the [ImportManager], the statement and expression
    visitor [ExpressionTranslatorVisitor] and the shared helper
    [visitLocalizedString], followed by the properties established for them.

    Conventions of the embedding.
    - A JavaScript [Map] is an association list in insertion order
      ([JsMap]) where the order is observable ([specifierToIdentifier] is
      iterated by [getAllImports]) and a [gmap] where it is not
      ([externalSourceFiles]).
    - Visitor methods run in a state-and-exception monad [M]: the state
      holds the objects the visitor mutates, a [throw] keeps the state
      reached so far, as an exception does.
    - The [ts.create*] factory is a black box for the translator; a node
      it builds is the constructor application recording its arguments.
      Mutable per-node data set after construction (source-map range,
      synthetic leading comments, the [kind] of a template piece) are
      fields of the node. *)

From Stdlib Require Import ZArith.
From stdpp Require Import base option list strings pretty gmap.


(** The double-quote character, as a string. *)
Definition dquote : string := String (Ascii.ascii_of_nat 34) EmptyString.

(** ** JavaScript [Map] with observable insertion order *)

Module JsMap.
Section Defs.
Context {K V : Type} `{EqDecision K}.

Definition t := list (K * V).

Definition empty : t := [].

Fixpoint get (m : t) (k : K) : option V :=
  match m with
  | [] => None
  | (k', v) :: m' => if decide (k' = k) then Some v else get m' k
  end.

Definition has (m : t) (k : K) : bool :=
  match get m k with Some _ => true | None => false end.

(** [set] keeps the position of a key already present and appends a
    new key at the end. *)
Fixpoint set (m : t) (k : K) (v : V) : t :=
  match m with
  | [] => [(k, v)]
  | (k', v') :: m' =>
      if decide (k' = k) then (k, v) :: m' else (k', v') :: set m' k v
  end.

(** [forEach] calls back with (value, key) in insertion order; the
    callbacks of this file only push to an array, so the traversal is
    the list of what they push. *)
Definition forEach {A : Type} (m : t) (f : V → K → A) : list A :=
  map (λ kv, f kv.2 kv.1) m.
End Defs.
Arguments t : clear implicits.
End JsMap.

(** ** Context *)

Record Context := mkContext { isStatement : bool }.

Definition withExpressionMode (c : Context) : Context :=
  if isStatement c then mkContext false else c.

Definition withStatementMode (c : Context) : Context :=
  if negb (isStatement c) then mkContext true else c.

(** ** Import rewriting policy and ImportManager *)

(** The [ImportRewriter] interface of [../../imports]; a policy answers
    by its arguments alone. *)
Record ImportRewriter := {
  shouldImportSymbol : string → string → bool;
  rewriteSymbol : string → string → string;
  rewriteSpecifier : string → string → string;
}.

(** Modelled from the spec: [NoopImportRewriter] is declared in
    [../../imports]; the no-op default is "identity symbol, always-import,
    identity specifier". *)
Definition NoopImportRewriter : ImportRewriter := {|
  shouldImportSymbol := λ _ _, true;
  rewriteSymbol := λ symbol _, symbol;
  rewriteSpecifier := λ specifier _, specifier;
|}.

Record Import := { specifier : string; qualifier : string }.

Record NamedImport := { moduleImport : option string; symbol : string }.

(** [nextIndex] counts up from 0 and is rendered in decimal by the
    template literal of the alias. *)
Record ImportManager := {
  rewriter : ImportRewriter;
  prefix : string;
  specifierToIdentifier : JsMap.t string string;
  nextIndex : nat;
}.

Definition newImportManager (rewriter : ImportRewriter) (prefix : string)
  : ImportManager :=
  {| rewriter := rewriter; prefix := prefix;
     specifierToIdentifier := JsMap.empty; nextIndex := 0 |}.

(** [new ImportManager()] with both default arguments. *)
Definition defaultImportManager : ImportManager :=
  newImportManager NoopImportRewriter "i".

Definition generateNamedImport (moduleName originalSymbol : string)
    (this : ImportManager) : NamedImport * ImportManager :=
  let symbol := rewriteSymbol (rewriter this) originalSymbol moduleName in
  if negb (shouldImportSymbol (rewriter this) symbol moduleName) then
    ({| moduleImport := None; symbol := symbol |}, this)
  else
    let this' :=
      if negb (JsMap.has (specifierToIdentifier this) moduleName) then
        {| rewriter := rewriter this; prefix := prefix this;
           specifierToIdentifier :=
             JsMap.set (specifierToIdentifier this) moduleName
               (prefix this +:+ pretty (nextIndex this));
           nextIndex := S (nextIndex this) |}
      else this in
    ({| moduleImport := JsMap.get (specifierToIdentifier this') moduleName;
        symbol := symbol |}, this').

Definition getAllImports (contextPath : string) (this : ImportManager)
  : list Import :=
  JsMap.forEach (specifierToIdentifier this)
    (λ qualifier specifier,
       let specifier := rewriteSpecifier (rewriter this) specifier contextPath in
       {| specifier := specifier; qualifier := qualifier |}).

(** A sequence of [generateNamedImport] calls on one manager, in order. *)
Fixpoint generateNamedImports (calls : list (string * string))
    (this : ImportManager) : list NamedImport * ImportManager :=
  match calls with
  | [] => ([], this)
  | (moduleName, originalSymbol) :: calls' =>
      let '(r, this1) := generateNamedImport moduleName originalSymbol this in
      let '(rs, this2) := generateNamedImports calls' this1 in
      (r :: rs, this2)
  end.

(** ** The TypeScript node model

    The part of the [typescript] package the translator uses. *)

Module ts.

Inductive ScriptTarget :=
| ES3 | ES5 | ES2015 | ES2016 | ES2017 | ES2018 | ES2019 | ES2020 | ESNext.

Definition ScriptTarget_value (t : ScriptTarget) : nat :=
  match t with
  | ES3 => 0 | ES5 => 1 | ES2015 => 2 | ES2016 => 3 | ES2017 => 4
  | ES2018 => 5 | ES2019 => 6 | ES2020 => 7 | ESNext => 99
  end.

(** The reverse mapping [ts.ScriptTarget[t]]; 99 reads back as the alias
    declared last. *)
Definition ScriptTarget_name (t : ScriptTarget) : string :=
  match t with
  | ES3 => "ES3" | ES5 => "ES5" | ES2015 => "ES2015" | ES2016 => "ES2016"
  | ES2017 => "ES2017" | ES2018 => "ES2018" | ES2019 => "ES2019"
  | ES2020 => "ES2020" | ESNext => "Latest"
  end.

Inductive SyntaxKind :=
| AmpersandAmpersandToken | GreaterThanToken | GreaterThanEqualsToken
| AmpersandToken | SlashToken | EqualsEqualsToken | EqualsEqualsEqualsToken
| LessThanToken | LessThanEqualsToken | MinusToken | PercentToken
| AsteriskToken | ExclamationEqualsToken | ExclamationEqualsEqualsToken
| BarBarToken | PlusToken
| EqualsToken | ExclamationToken
| MultiLineCommentTrivia
| NoSubstitutionTemplateLiteral | TemplateHead | TemplateMiddle | TemplateTail.

#[global] Instance SyntaxKind_eq_dec : EqDecision SyntaxKind.
Proof. solve_decision. Defined.

Inductive NodeFlags := None_ | Const.

(** The object [ts.createSourceMapSource] allocates; [sourceId] is its
    identity (the number of sources created before it). *)
Record SourceMapSource := {
  sourceId : nat;
  fileName : string;
  text : string;
}.

Record SourceMapRange := {
  pos : Z;
  end_ : Z;
  source : option SourceMapSource;
}.

Record SynthesizedComment := {
  commentKind : SyntaxKind;
  commentText : string;
  commentPos : Z;
  commentEnd : Z;
  hasTrailingNewLine : option bool;
}.

Record EmitNode := {
  sourceMapRange : option SourceMapRange;
  leadingComments : list SynthesizedComment;
}.

Definition noEmitNode : EmitNode :=
  {| sourceMapRange := None; leadingComments := [] |}.

Inductive Node :=
| mkNode (shape : Shape) (emitNode : EmitNode)
with Shape :=
(* expressions *)
| Identifier (text : string)
| StringLiteral (text : string)
| NumericLiteral (value : Z)
| TrueKeyword
| FalseKeyword
| NullKeyword
| BinaryExpression (left : Node) (operator : SyntaxKind) (right : Node)
| ParenthesizedExpression (expression : Node)
| ElementAccessExpression (expression : Node) (argumentExpression : Node)
| PropertyAccessExpression (expression : Node) (name : Node)
| CallExpression (expression : Node) (arguments : list Node)
| NewExpression (expression : Node) (arguments : list Node)
| ConditionalExpression (condition : Node) (whenTrue : Node) (whenFalse : Node)
| PrefixUnaryExpression (operator : SyntaxKind) (operand : Node)
| FunctionExpression (name : option string) (parameters : list Node) (body : Node)
| ArrayLiteralExpression (elements : list Node)
| ObjectLiteralExpression (properties : list Node)
| PropertyAssignment (name : Node) (initializer : Node)
| TypeOfExpression (expression : Node)
| TemplateLiteralLike (kind : SyntaxKind) (text : string) (rawText : string)
| TemplateSpan (expression : Node) (literal : Node)
| TemplateExpression (head : Node) (templateSpans : list Node)
| TaggedTemplateExpression (tag : Node) (template : Node)
(* declarations and statements *)
| ParameterDeclaration (name : string)
| Block (statements : list Node)
| VariableDeclaration (name : string) (initializer : option Node)
| VariableDeclarationList (declarations : list Node) (flags : NodeFlags)
| VariableStatement (declarationList : Node)
| FunctionDeclaration (name : string) (parameters : list Node) (body : Node)
| ExpressionStatement (expression : Node)
| ReturnStatement (expression : Node)
| IfStatement (expression : Node) (thenStatement : Node) (elseStatement : option Node)
| ThrowStatement (expression : Node)
| NotEmittedStatement (original : Node).

Definition shape (n : Node) : Shape := let 'mkNode s _ := n in s.
Definition emitNode (n : Node) : EmitNode := let 'mkNode _ e := n in e.

(** A freshly synthesized node. *)
Definition synthesized (s : Shape) : Node := mkNode s noEmitNode.

Definition isIdentifier (n : Node) : bool :=
  match shape n with Identifier _ => true | _ => false end.

Definition isParenthesizedExpression (n : Node) : bool :=
  match shape n with ParenthesizedExpression _ => true | _ => false end.

(** *** The factory *)

Definition createIdentifier (text : string) : Node := synthesized (Identifier text).
Definition createNull : Node := synthesized NullKeyword.

Inductive LiteralArg := ofString (s : string) | ofNumber (n : Z) | ofBoolean (b : bool).

Definition createLiteral (value : LiteralArg) : Node :=
  match value with
  | ofString s => synthesized (StringLiteral s)
  | ofNumber n => synthesized (NumericLiteral n)
  | ofBoolean b => synthesized (if b then TrueKeyword else FalseKeyword)
  end.

Definition createBinary (left : Node) (operator : SyntaxKind) (right : Node) : Node :=
  synthesized (BinaryExpression left operator right).
Definition createParen (expression : Node) : Node :=
  synthesized (ParenthesizedExpression expression).
Definition createElementAccess (expression index : Node) : Node :=
  synthesized (ElementAccessExpression expression index).

(** [name: string | Identifier]; a string is made an identifier. *)
Definition createPropertyAccess (expression : Node) (name : string + Node) : Node :=
  synthesized (PropertyAccessExpression expression
                 (match name with inl s => createIdentifier s | inr n => n end)).

Definition createCall (expression : Node) (argumentsArray : list Node) : Node :=
  synthesized (CallExpression expression argumentsArray).
Definition createNew (expression : Node) (argumentsArray : list Node) : Node :=
  synthesized (NewExpression expression argumentsArray).
Definition createConditional (condition whenTrue whenFalse : Node) : Node :=
  synthesized (ConditionalExpression condition whenTrue whenFalse).
Definition createPrefix (operator : SyntaxKind) (operand : Node) : Node :=
  synthesized (PrefixUnaryExpression operator operand).
Definition createParameter (name : string) : Node := synthesized (ParameterDeclaration name).
Definition createBlock (statements : list Node) : Node := synthesized (Block statements).
Definition createFunctionExpression (name : option string) (parameters : list Node)
    (body : Node) : Node :=
  synthesized (FunctionExpression name parameters body).
Definition createArrayLiteral (elements : list Node) : Node :=
  synthesized (ArrayLiteralExpression elements).
Definition createPropertyAssignment (name initializer : Node) : Node :=
  synthesized (PropertyAssignment name initializer).
Definition createObjectLiteral (properties : list Node) : Node :=
  synthesized (ObjectLiteralExpression properties).
Definition createTypeOf (expression : Node) : Node :=
  synthesized (TypeOfExpression expression).

Definition createNoSubstitutionTemplateLiteral (text rawText : string) : Node :=
  synthesized (TemplateLiteralLike NoSubstitutionTemplateLiteral text rawText).
Definition createTemplateHead (text rawText : string) : Node :=
  synthesized (TemplateLiteralLike TemplateHead text rawText).
Definition createTemplateMiddle (text rawText : string) : Node :=
  synthesized (TemplateLiteralLike TemplateMiddle text rawText).
Definition createTemplateSpan (expression literal : Node) : Node :=
  synthesized (TemplateSpan expression literal).
Definition createTemplateExpression (head : Node) (templateSpans : list Node) : Node :=
  synthesized (TemplateExpression head templateSpans).
Definition createTaggedTemplate (tag template : Node) : Node :=
  synthesized (TaggedTemplateExpression tag template).

Definition createVariableDeclaration (name : string) (initializer : option Node) : Node :=
  synthesized (VariableDeclaration name initializer).
Definition createVariableDeclarationList (declarations : list Node) (flags : NodeFlags)
  : Node := synthesized (VariableDeclarationList declarations flags).
Definition createVariableStatement (declarationList : Node) : Node :=
  synthesized (VariableStatement declarationList).
Definition createFunctionDeclaration (name : string) (parameters : list Node)
    (body : Node) : Node :=
  synthesized (FunctionDeclaration name parameters body).
Definition createStatement (expression : Node) : Node :=
  synthesized (ExpressionStatement expression).
Definition createReturn (expression : Node) : Node :=
  synthesized (ReturnStatement expression).
Definition createIf (expression thenStatement : Node) (elseStatement : option Node)
  : Node := synthesized (IfStatement expression thenStatement elseStatement).
Definition createThrow (expression : Node) : Node :=
  synthesized (ThrowStatement expression).
Definition createNotEmittedStatement (original : Node) : Node :=
  synthesized (NotEmittedStatement original).

(** *** Mutators of a node's emit data *)

Definition setSourceMapRange (node : Node) (range : SourceMapRange) : Node :=
  let 'mkNode s e := node in
  mkNode s {| sourceMapRange := Some range; leadingComments := leadingComments e |}.

Definition setSyntheticLeadingComments (node : Node)
    (comments : list SynthesizedComment) : Node :=
  let 'mkNode s e := node in
  mkNode s {| sourceMapRange := sourceMapRange e; leadingComments := comments |}.

Definition addSyntheticLeadingComment (node : Node) (kind : SyntaxKind)
    (text : string) (hasTrailingNewLine : bool) : Node :=
  setSyntheticLeadingComments node
    (leadingComments (emitNode node) ++
       [ {| commentKind := kind; commentText := text; commentPos := -1;
            commentEnd := -1; hasTrailingNewLine := Some hasTrailingNewLine |} ]).

(** The assignment [span.literal.kind = kind] on a template span. *)
Definition setSpanLiteralKind (kind : SyntaxKind) (span : Node) : Node :=
  match span with
  | mkNode (TemplateSpan e (mkNode (TemplateLiteralLike _ t r) el)) es =>
      mkNode (TemplateSpan e (mkNode (TemplateLiteralLike kind t r) el)) es
  | _ => span
  end.

End ts.

(** ** The output AST of [@angular/compiler]

    The IR the translator reads.  Its classes are declared in
    [@angular/compiler]; a node is its constructor with the fields the
    translator reads, and the methods the translator calls on a node
    ([serializeI18nHead], [serializeI18nTemplatePart], [toString]) are
    carried by the node. *)

Record ParseSourceFile := { content : string; url : string }.
Record ParseLocation := { file : ParseSourceFile; offset : Z }.
Record ParseSourceSpan := { start : ParseLocation; end_ : ParseLocation }.

(** Modelled from the spec: the IR's operator enumeration is declared in
    [@angular/compiler].  The sixteen members the operator table names are
    constructors; a member the table does not name is [OtherBinaryOperator],
    carrying the name the reverse mapping [BinaryOperator[op]] gives it. *)
Inductive BinaryOperator :=
| And | Bigger | BiggerEquals | BitwiseAnd | Divide | Equals | Identical
| Lower | LowerEquals | Minus | Modulo | Multiply | NotEquals | NotIdentical
| Or | Plus
| OtherBinaryOperator (name : string).

#[global] Instance BinaryOperator_eq_dec : EqDecision BinaryOperator.
Proof. solve_decision. Defined.

Definition BinaryOperator_name (op : BinaryOperator) : string :=
  match op with
  | And => "And" | Bigger => "Bigger" | BiggerEquals => "BiggerEquals"
  | BitwiseAnd => "BitwiseAnd" | Divide => "Divide" | Equals => "Equals"
  | Identical => "Identical" | Lower => "Lower" | LowerEquals => "LowerEquals"
  | Minus => "Minus" | Modulo => "Modulo" | Multiply => "Multiply"
  | NotEquals => "NotEquals" | NotIdentical => "NotIdentical" | Or => "Or"
  | Plus => "Plus" | OtherBinaryOperator name => name
  end.

Inductive StmtModifier := Final | Private | Exported | Static.

#[global] Instance StmtModifier_eq_dec : EqDecision StmtModifier.
Proof. solve_decision. Defined.

(** The value of a [LiteralExpr]; numbers are carried through unchanged
    and stand as integers. *)
Inductive LiteralValue :=
| LUndefined | LNull | LString (s : string) | LNumber (n : Z) | LBoolean (b : bool).

Record ExternalReference := {
  moduleName : option string;
  name : option string;
}.

Record FnParam := { paramName : string }.

Record CookedRaw := { cooked : string; raw : string }.

(** [LocalizedString], over the type of its embedded expressions. *)
Record LocalizedStringOf (E : Type) := {
  messageParts : list string;
  expressions : list E;
  serializeI18nHead : CookedRaw;
  serializeI18nTemplatePart : nat → CookedRaw;
}.
Arguments messageParts {E}.
Arguments expressions {E}.
Arguments serializeI18nHead {E}.
Arguments serializeI18nTemplatePart {E}.

(** An entry of a [LiteralMapExpr], over the type of its value. *)
Record LiteralMapEntryOf (E : Type) := {
  key : string;
  value : E;
  quoted : bool;
}.
Arguments key {E}.
Arguments value {E}.
Arguments quoted {E}.

Scheme All for list.
Scheme All for option.
Scheme All for LocalizedStringOf.
Scheme All for LiteralMapEntryOf.

(** [ReadVarExpr]: the source asserts the name non-null ([ast.name !]);
    builtin variables, whose name is null, are outside the embedding. *)
Inductive Expression :=
| ReadVarExpr (name : string) (sourceSpan : option ParseSourceSpan)
| WriteVarExpr (name : string) (value : Expression) (sourceSpan : option ParseSourceSpan)
| WriteKeyExpr (receiver index value : Expression) (sourceSpan : option ParseSourceSpan)
| WritePropExpr (receiver : Expression) (name : string) (value : Expression)
    (sourceSpan : option ParseSourceSpan)
| InvokeMethodExpr (receiver : Expression) (name : option string)
    (args : list Expression) (sourceSpan : option ParseSourceSpan)
| InvokeFunctionExpr (fn : Expression) (args : list Expression) (pure : bool)
    (sourceSpan : option ParseSourceSpan)
| InstantiateExpr (classExpr : Expression) (args : list Expression)
    (sourceSpan : option ParseSourceSpan)
| LiteralExpr (value : LiteralValue) (sourceSpan : option ParseSourceSpan)
| LocalizedString (ast : LocalizedStringOf Expression)
    (sourceSpan : option ParseSourceSpan)
| ExternalExpr (value : ExternalReference) (sourceSpan : option ParseSourceSpan)
| ConditionalExpr (condition trueCase : Expression) (falseCase : option Expression)
    (sourceSpan : option ParseSourceSpan)
| NotExpr (condition : Expression) (sourceSpan : option ParseSourceSpan)
| AssertNotNull (condition : Expression) (sourceSpan : option ParseSourceSpan)
| CastExpr (value : Expression) (sourceSpan : option ParseSourceSpan)
| FunctionExpr (params : list FnParam) (statements : list Statement)
    (name : option string) (sourceSpan : option ParseSourceSpan)
| BinaryOperatorExpr (operator : BinaryOperator) (lhs rhs : Expression)
    (sourceSpan : option ParseSourceSpan)
| ReadPropExpr (receiver : Expression) (name : string)
    (sourceSpan : option ParseSourceSpan)
| ReadKeyExpr (receiver index : Expression) (sourceSpan : option ParseSourceSpan)
| LiteralArrayExpr (entries : list Expression) (sourceSpan : option ParseSourceSpan)
| LiteralMapExpr (entries : list (LiteralMapEntryOf Expression))
    (sourceSpan : option ParseSourceSpan)
| CommaExpr (parts : list Expression) (sourceSpan : option ParseSourceSpan)
| WrappedNodeExpr (node : ts.Node) (sourceSpan : option ParseSourceSpan)
| TypeofExpr (expr : Expression) (sourceSpan : option ParseSourceSpan)
with Statement :=
| DeclareVarStmt (name : string) (value : option Expression)
    (modifiers : list StmtModifier)
| DeclareFunctionStmt (name : string) (params : list FnParam)
    (statements : list Statement)
| ExpressionStatement (expr : Expression)
| ReturnStatement (value : Expression)
| ClassStmt (name : string)
| IfStmt (condition : Expression) (trueCase falseCase : list Statement)
| TryCatchStmt (bodyStmts catchStmts : list Statement)
| ThrowStmt (error : Expression)
| CommentStmt (comment : string)
| JSDocCommentStmt (toString : string).

Definition sourceSpan (ast : Expression) : option ParseSourceSpan :=
  match ast with
  | ReadVarExpr _ s | WriteVarExpr _ _ s | WriteKeyExpr _ _ _ s
  | WritePropExpr _ _ _ s | InvokeMethodExpr _ _ _ s | InvokeFunctionExpr _ _ _ s
  | InstantiateExpr _ _ s | LiteralExpr _ s | LocalizedString _ s
  | ExternalExpr _ s | ConditionalExpr _ _ _ s | NotExpr _ s | AssertNotNull _ s
  | CastExpr _ s | FunctionExpr _ _ _ s | BinaryOperatorExpr _ _ _ s
  | ReadPropExpr _ _ s | ReadKeyExpr _ _ s | LiteralArrayExpr _ s
  | LiteralMapExpr _ s | CommaExpr _ s | WrappedNodeExpr _ s | TypeofExpr _ s => s
  end.

Definition hasModifier (modifiers : list StmtModifier) (modifier : StmtModifier)
  : bool := bool_decide (modifier ∈ modifiers).

(** ** The operator table *)

Definition BINARY_OPERATORS : JsMap.t BinaryOperator ts.SyntaxKind := [
  (And, ts.AmpersandAmpersandToken);
  (Bigger, ts.GreaterThanToken);
  (BiggerEquals, ts.GreaterThanEqualsToken);
  (BitwiseAnd, ts.AmpersandToken);
  (Divide, ts.SlashToken);
  (Equals, ts.EqualsEqualsToken);
  (Identical, ts.EqualsEqualsEqualsToken);
  (Lower, ts.LessThanToken);
  (LowerEquals, ts.LessThanEqualsToken);
  (Minus, ts.MinusToken);
  (Modulo, ts.PercentToken);
  (Multiply, ts.AsteriskToken);
  (NotEquals, ts.ExclamationEqualsToken);
  (NotIdentical, ts.ExclamationEqualsEqualsToken);
  (Or, ts.BarBarToken);
  (Plus, ts.PlusToken)
].

Scheme Expression_mut := Induction for Expression Sort Prop
  with Statement_mut := Induction for Statement Sort Prop.

Combined Scheme Expression_Statement_ind from Expression_mut, Statement_mut.

(** ** The visitor's monad *)

Inductive JsException :=
| Error (message : string)
| TypeError (message : string).

(** Reading property [prop] of [null]. *)
Definition nullDereference (prop : string) : JsException :=
  TypeError ("Cannot read property '" +:+ prop +:+ "' of null").

(** Reading property [prop] of [undefined]. *)
Definition undefinedDereference (prop : string) : JsException :=
  TypeError ("Cannot read property '" +:+ prop +:+ "' of undefined").

Inductive Completion (A : Type) :=
| Normal (a : A)
| Thrown (e : JsException).
Arguments Normal {A}.
Arguments Thrown {A}.

(** The objects an [ExpressionTranslatorVisitor] holds and mutates:
    the import manager, the source-file cache with the count of
    [SourceMapSource] objects created so far, and what the
    [DefaultImportRecorder] collaborator was told. *)
Record VisitorState := {
  imports : ImportManager;
  externalSourceFiles : gmap string ts.SourceMapSource;
  sourcesCreated : nat;
  recordedIdentifiers : list ts.Node;
}.

Definition newVisitor (imports : ImportManager) : VisitorState :=
  {| imports := imports; externalSourceFiles := ∅; sourcesCreated := 0;
     recordedIdentifiers := [] |}.

Definition M (A : Type) : Type := VisitorState → Completion A * VisitorState.

Definition ret {A} (a : A) : M A := λ s, (Normal a, s).

Definition throw {A} (e : JsException) : M A := λ s, (Thrown e, s).

Definition bind {A B} (m : M A) (k : A → M B) : M B :=
  λ s, match m s with
       | (Normal a, s') => k a s'
       | (Thrown e, s') => (Thrown e, s')
       end.

Declare Scope visitor_scope.
Delimit Scope visitor_scope with visitor.
Notation "x <- m ;; k" := (bind m (λ x, k))
  (at level 100, m at next level, right associativity) : visitor_scope.
Open Scope visitor_scope.

(** [array.map(f)] with an effectful callback: elements in order. *)
Fixpoint mapM {A B} (f : A → M B) (l : list A) : M (list B) :=
  match l with
  | [] => ret []
  | x :: l' => y <- f x ;; ys <- mapM f l' ;; ret (y :: ys)
  end.

(** [o && f(o)] on an optional operand. *)
Definition optM {A B} (f : A → M B) (o : option A) : M (option B) :=
  match o with
  | None => ret None
  | Some x => y <- f x ;; ret (Some y)
  end.

Definition throws {A} (m : M A) (s : VisitorState) (e : JsException) : Prop :=
  (m s).1 = Thrown e.

Definition withImports (s : VisitorState) (imports' : ImportManager) : VisitorState :=
  {| imports := imports'; externalSourceFiles := externalSourceFiles s;
     sourcesCreated := sourcesCreated s;
     recordedIdentifiers := recordedIdentifiers s |}.

(** [this.imports.m(...)] for a method [m] of the import manager. *)
Definition onImports {A} (m : ImportManager → A * ImportManager) : M A :=
  λ s, let '(a, imports') := m (imports s) in (Normal a, withImports s imports').

(** [this.defaultImportRecorder.recordUsedIdentifier(node)]. *)
Definition recordUsedIdentifier (node : ts.Node) : M unit :=
  λ s, (Normal (),
        {| imports := imports s; externalSourceFiles := externalSourceFiles s;
           sourcesCreated := sourcesCreated s;
           recordedIdentifiers := recordedIdentifiers s ++ [node] |}).

(** [ts.createSourceMapSource(url, content, pos => pos)] followed by
    [this.externalSourceFiles.set(url, ...)]. *)
Definition cacheSourceFile (url content : string) (s : VisitorState) : VisitorState :=
  {| imports := imports s;
     externalSourceFiles :=
       <[url := {| ts.sourceId := sourcesCreated s; ts.fileName := url;
                   ts.text := content |}]> (externalSourceFiles s);
     sourcesCreated := S (sourcesCreated s);
     recordedIdentifiers := recordedIdentifiers s |}.

(** A string is truthy when it is not empty. *)
Definition truthy (s : string) : bool := negb (bool_decide (s = EmptyString)).

(** ** The shared helper [visitLocalizedString]

    [visitor] stands for [e.visitExpression(visitor, context)] on an
    embedded expression [e]. *)

Section LocalizedStringHelper.
Context {E : Type}.
Variable ast : LocalizedStringOf E.
Variable context : Context.
Variable visitor : E → Context → M ts.Node.

(** One turn of the [for] loop, at index [i]. *)
Definition localizedSpan (i : nat) (spans : list ts.Node) : M (list ts.Node) :=
  match expressions ast !! (i - 1) with
  | None => throw (undefinedDereference "visitExpression")
  | Some e =>
      resolvedExpression <- visitor e context ;;
      let templatePart := serializeI18nTemplatePart ast i in
      let templateMiddle :=
        ts.createTemplateMiddle (cooked templatePart) (raw templatePart) in
      ret (spans ++ [ts.createTemplateSpan resolvedExpression templateMiddle])
  end.

(** The loop from index [i], with [turns] turns left. *)
Fixpoint localizedSpans (turns i : nat) (spans : list ts.Node) : M (list ts.Node) :=
  match turns with
  | 0 => ret spans
  | S turns' =>
      spans' <- localizedSpan i spans ;; localizedSpans turns' (S i) spans'
  end.

Definition visitLocalizedString : M ts.Node :=
  let metaBlock := serializeI18nHead ast in
  template <-
    (if decide (length (messageParts ast) = 1) then
       ret (ts.createNoSubstitutionTemplateLiteral (cooked metaBlock) (raw metaBlock))
     else
       let head := ts.createTemplateHead (cooked metaBlock) (raw metaBlock) in
       spans <- localizedSpans (length (messageParts ast) - 1) 1 [] ;;
       let spans :=
         if decide (0 < length spans)%nat then
           alter (ts.setSpanLiteralKind ts.TemplateTail) (length spans - 1) spans
         else spans in
       ret (ts.createTemplateExpression head spans)) ;;
  ret (ts.createTaggedTemplate (ts.createIdentifier "$localize") template).
End LocalizedStringHelper.

(** An IR node seen through the double dispatch: each embedded expression
    [e] is [e.visitExpression(visitor, _)]. *)
Definition dispatched {E} (visitExpression : E → Context → M ts.Node)
    (ast : LocalizedStringOf E) : LocalizedStringOf (Context → M ts.Node) :=
  {| messageParts := messageParts ast;
     expressions := map visitExpression (expressions ast);
     serializeI18nHead := serializeI18nHead ast;
     serializeI18nTemplatePart := serializeI18nTemplatePart ast |}.

(** ** ExpressionTranslatorVisitor *)

Section ExpressionTranslatorVisitor.
Variable scriptTarget : ts.ScriptTarget.

Definition setSourceMapRange (expr : ts.Node) (ast : Expression) : M ts.Node :=
  λ s,
    match sourceSpan ast with
    | Some span =>
        let url := url (file (start span)) in
        let content := content (file (start span)) in
        if truthy url then
          let s' :=
            if negb (bool_decide (is_Some (externalSourceFiles s !! url)))
            then cacheSourceFile url content s else s in
          let source := externalSourceFiles s' !! url in
          (Normal (ts.setSourceMapRange expr
                     {| ts.pos := offset (start span);
                        ts.end_ := offset (end_ span);
                        ts.source := source |}), s')
        else (Normal expr, s)
    | None => (Normal expr, s)
    end.

(** The method bodies, over the double dispatch
    [e.visitExpression(this, context)] and [s.visitStatement(this, context)]. *)
Section Methods.
Variable visitExpression : Expression → Context → M ts.Node.
Variable visitStatement : Statement → Context → M ts.Node.

Definition visitDeclareVarStmt (name : string) (value : option Expression)
    (modifiers : list StmtModifier) (context : Context) : M ts.Node :=
  let nodeFlags :=
    if bool_decide (ts.ScriptTarget_value ts.ES2015 ≤ ts.ScriptTarget_value scriptTarget)%nat
       && hasModifier modifiers Final
    then ts.Const else ts.None_ in
  initializer <- optM (λ v, visitExpression v (withExpressionMode context)) value ;;
  ret (ts.createVariableStatement
         (ts.createVariableDeclarationList
            [ts.createVariableDeclaration name initializer] nodeFlags)).

Definition visitDeclareFunctionStmt (name : string) (params : list FnParam)
    (statements : list Statement) (context : Context) : M ts.Node :=
  let parameters := map (λ param, ts.createParameter (paramName param)) params in
  body <- mapM (λ child, visitStatement child (withStatementMode context)) statements ;;
  ret (ts.createFunctionDeclaration name parameters (ts.createBlock body)).

Definition visitExpressionStmt (expr : Expression) (context : Context) : M ts.Node :=
  e <- visitExpression expr (withStatementMode context) ;;
  ret (ts.createStatement e).

Definition visitReturnStmt (value : Expression) (context : Context) : M ts.Node :=
  e <- visitExpression value (withExpressionMode context) ;;
  ret (ts.createReturn e).

Definition visitDeclareClassStmt (name : string) (context : Context) : M ts.Node :=
  if bool_decide (ts.ScriptTarget_value scriptTarget < ts.ScriptTarget_value ts.ES2015)%nat
  then
    throw (Error ("Unsupported mode: Visiting a " +:+ dquote +:+ "declare class"
                  +:+ dquote +:+ " statement (class "
                  +:+ name +:+ ") while targeting "
                  +:+ ts.ScriptTarget_name scriptTarget +:+ "."))
  else throw (Error "Method not implemented.").

Definition visitIfStmt (condition : Expression) (trueCase falseCase : list Statement)
    (context : Context) : M ts.Node :=
  c <- visitExpression condition context ;;
  thenBlock <-
    mapM (λ child, visitStatement child (withStatementMode context)) trueCase ;;
  elseBlock <-
    (if bool_decide (0 < length falseCase)%nat then
       b <- mapM (λ child, visitStatement child (withStatementMode context))
              falseCase ;;
       ret (Some (ts.createBlock b))
     else ret None) ;;
  ret (ts.createIf c (ts.createBlock thenBlock) elseBlock).

Definition visitTryCatchStmt (context : Context) : M ts.Node :=
  throw (Error "Method not implemented.").

Definition visitThrowStmt (error : Expression) (context : Context) : M ts.Node :=
  e <- visitExpression error (withExpressionMode context) ;;
  ret (ts.createThrow e).

Definition visitCommentStmt (context : Context) : M ts.Node :=
  throw (Error "Method not implemented.").

Definition visitJSDocCommentStmt (toString : string) (context : Context)
  : M ts.Node :=
  let commentStmt := ts.createNotEmittedStatement (ts.createLiteral (ts.ofString EmptyString)) in
  let text := toString in
  let kind := ts.MultiLineCommentTrivia in
  ret (ts.setSyntheticLeadingComments commentStmt
         [ {| ts.commentKind := kind; ts.commentText := text;
              ts.commentPos := -1; ts.commentEnd := -1;
              ts.hasTrailingNewLine := None |} ]).

Definition visitReadVarExpr (ast : Expression) (name : string) (context : Context)
  : M ts.Node :=
  let identifier := ts.createIdentifier name in
  setSourceMapRange identifier ast.

Definition visitWriteVarExpr (name : string) (value : Expression)
    (context : Context) : M ts.Node :=
  v <- visitExpression value context ;;
  let result := ts.createBinary (ts.createIdentifier name) ts.EqualsToken v in
  ret (if isStatement context then result else ts.createParen result).

Definition visitWriteKeyExpr (receiver index value : Expression)
    (context : Context) : M ts.Node :=
  let exprContext := withExpressionMode context in
  r <- visitExpression receiver exprContext ;;
  i <- visitExpression index exprContext ;;
  let lhs := ts.createElementAccess r i in
  rhs <- visitExpression value exprContext ;;
  let result := ts.createBinary lhs ts.EqualsToken rhs in
  ret (if isStatement context then result else ts.createParen result).

Definition visitWritePropExpr (receiver : Expression) (name : string)
    (value : Expression) (context : Context) : M ts.Node :=
  r <- visitExpression receiver context ;;
  v <- visitExpression value context ;;
  ret (ts.createBinary (ts.createPropertyAccess r (inl name)) ts.EqualsToken v).

Definition visitInvokeMethodExpr (ast : Expression) (receiver : Expression)
    (name : option string) (args : list Expression) (context : Context)
  : M ts.Node :=
  target <- visitExpression receiver context ;;
  let callee :=
    match name with
    | Some name => ts.createPropertyAccess target (inl name)
    | None => target
    end in
  argv <- mapM (λ arg, visitExpression arg context) args ;;
  let call := ts.createCall callee argv in
  setSourceMapRange call ast.

Definition visitInvokeFunctionExpr (ast : Expression) (fn : Expression)
    (args : list Expression) (pure : bool) (context : Context) : M ts.Node :=
  f <- visitExpression fn context ;;
  argv <- mapM (λ arg, visitExpression arg context) args ;;
  let expr := ts.createCall f argv in
  let expr :=
    if pure then
      ts.addSyntheticLeadingComment expr ts.MultiLineCommentTrivia "@__PURE__" false
    else expr in
  setSourceMapRange expr ast.

Definition visitInstantiateExpr (classExpr : Expression) (args : list Expression)
    (context : Context) : M ts.Node :=
  c <- visitExpression classExpr context ;;
  argv <- mapM (λ arg, visitExpression arg context) args ;;
  ret (ts.createNew c argv).

Definition visitLiteralExpr (ast : Expression) (value : LiteralValue)
    (context : Context) : M ts.Node :=
  let expr :=
    match value with
    | LUndefined => ts.createIdentifier "undefined"
    | LNull => ts.createNull
    | LString s => ts.createLiteral (ts.ofString s)
    | LNumber n => ts.createLiteral (ts.ofNumber n)
    | LBoolean b => ts.createLiteral (ts.ofBoolean b)
    end in
  setSourceMapRange expr ast.

Definition visitLocalizedStringExpr (ast : LocalizedStringOf (Context → M ts.Node))
    (context : Context) : M ts.Node :=
  if bool_decide (ts.ScriptTarget_value scriptTarget < ts.ScriptTarget_value ts.ES2015)%nat
  then
    throw (Error ("Unsupported mode: Visiting a localized string (which produces a tagged template "
                  +:+ "literal) ' while targeting "
                  +:+ ts.ScriptTarget_name scriptTarget +:+ "."))
  else visitLocalizedString ast context (λ e c, e c).

(** [${ast.value}] renders an [ExternalReference], which has no
    [toString] of its own. *)
Definition visitExternalExpr (value : ExternalReference) (context : Context)
  : M ts.Node :=
  match name value with
  | None => throw (Error "Import unknown module or symbol [object Object]")
  | Some name =>
      match moduleName value with
      | Some moduleName =>
          r <- onImports (generateNamedImport moduleName name) ;;
          match moduleImport r with
          | None => ret (ts.createIdentifier (symbol r))
          | Some moduleImport =>
              ret (ts.createPropertyAccess (ts.createIdentifier moduleImport)
                     (inr (ts.createIdentifier (symbol r))))
          end
      | None => ret (ts.createIdentifier name)
      end
  end.

Definition visitConditionalExpr (condition trueCase : Expression)
    (falseCase : option Expression) (context : Context) : M ts.Node :=
  c <- visitExpression condition context ;;
  t <- visitExpression trueCase context ;;
  f <- match falseCase with
       | Some falseCase => visitExpression falseCase context
       | None => throw (nullDereference "visitExpression")
       end ;;
  ret (ts.createConditional c t f).

Definition visitNotExpr (condition : Expression) (context : Context) : M ts.Node :=
  c <- visitExpression condition context ;;
  ret (ts.createPrefix ts.ExclamationToken c).

Definition visitAssertNotNullExpr (condition : Expression) (context : Context)
  : M ts.Node := visitExpression condition context.

Definition visitCastExpr (value : Expression) (context : Context) : M ts.Node :=
  visitExpression value context.

Definition visitFunctionExpr (params : list FnParam) (statements : list Statement)
    (name : option string) (context : Context) : M ts.Node :=
  let name := match name with
              | Some n => if truthy n then Some n else None
              | None => None
              end in
  let parameters := map (λ param, ts.createParameter (paramName param)) params in
  body <- mapM (λ stmt, visitStatement stmt context) statements ;;
  ret (ts.createFunctionExpression name parameters (ts.createBlock body)).

(** [has] and [get] read the same entry, so the guard and the
    non-null-asserted lookup are one match. *)
Definition visitBinaryOperatorExpr (operator : BinaryOperator) (lhs rhs : Expression)
    (context : Context) : M ts.Node :=
  match JsMap.get BINARY_OPERATORS operator with
  | None =>
      throw (Error ("Unknown binary operator: " +:+ BinaryOperator_name operator))
  | Some token =>
      l <- visitExpression lhs context ;;
      r <- visitExpression rhs context ;;
      ret (ts.createBinary l token r)
  end.

Definition visitReadPropExpr (receiver : Expression) (name : string)
    (context : Context) : M ts.Node :=
  r <- visitExpression receiver context ;;
  ret (ts.createPropertyAccess r (inl name)).

Definition visitReadKeyExpr (receiver index : Expression) (context : Context)
  : M ts.Node :=
  r <- visitExpression receiver context ;;
  i <- visitExpression index context ;;
  ret (ts.createElementAccess r i).

Definition visitLiteralArrayExpr (ast : Expression) (entries : list Expression)
    (context : Context) : M ts.Node :=
  elements <- mapM (λ expr, visitExpression expr context) entries ;;
  let expr := ts.createArrayLiteral elements in
  setSourceMapRange expr ast.

Definition visitLiteralMapExpr (ast : Expression)
    (entries : list (LiteralMapEntryOf Expression)) (context : Context)
  : M ts.Node :=
  entries <-
    mapM (λ entry,
            let name :=
              if quoted entry then ts.createLiteral (ts.ofString (key entry))
              else ts.createIdentifier (key entry) in
            v <- visitExpression (value entry) context ;;
            ret (ts.createPropertyAssignment name v)) entries ;;
  let expr := ts.createObjectLiteral entries in
  setSourceMapRange expr ast.

Definition visitCommaExpr (context : Context) : M ts.Node :=
  throw (Error "Method not implemented.").

Definition visitWrappedNodeExpr (node : ts.Node) (context : Context) : M ts.Node :=
  _ <- (if ts.isIdentifier node then recordUsedIdentifier node else ret ()) ;;
  ret node.

Definition visitTypeofExpr (expr : Expression) (context : Context) : M ts.Node :=
  e <- visitExpression expr context ;;
  ret (ts.createTypeOf e).
End Methods.
End ExpressionTranslatorVisitor.

(** The double dispatch: [ast.visitExpression(visitor, context)] calls the
    visitor method of the node's class, [stmt.visitStatement] likewise. *)
Fixpoint visitExpression (scriptTarget : ts.ScriptTarget) (ast : Expression)
    (context : Context) {struct ast} : M ts.Node :=
  match ast with
  | ReadVarExpr name _ => visitReadVarExpr ast name context
  | WriteVarExpr name value _ =>
      visitWriteVarExpr (visitExpression scriptTarget) name value context
  | WriteKeyExpr receiver index value _ =>
      visitWriteKeyExpr (visitExpression scriptTarget) receiver index value context
  | WritePropExpr receiver name value _ =>
      visitWritePropExpr (visitExpression scriptTarget) receiver name value context
  | InvokeMethodExpr receiver name args _ =>
      visitInvokeMethodExpr (visitExpression scriptTarget) ast receiver name args context
  | InvokeFunctionExpr fn args pure _ =>
      visitInvokeFunctionExpr (visitExpression scriptTarget) ast fn args pure context
  | InstantiateExpr classExpr args _ =>
      visitInstantiateExpr (visitExpression scriptTarget) classExpr args context
  | LiteralExpr value _ => visitLiteralExpr ast value context
  | LocalizedString localized _ =>
      visitLocalizedStringExpr scriptTarget
        (dispatched (visitExpression scriptTarget) localized) context
  | ExternalExpr value _ => visitExternalExpr value context
  | ConditionalExpr condition trueCase falseCase _ =>
      visitConditionalExpr (visitExpression scriptTarget) condition trueCase falseCase
        context
  | NotExpr condition _ => visitNotExpr (visitExpression scriptTarget) condition context
  | AssertNotNull condition _ =>
      visitAssertNotNullExpr (visitExpression scriptTarget) condition context
  | CastExpr value _ => visitCastExpr (visitExpression scriptTarget) value context
  | FunctionExpr params statements name _ =>
      visitFunctionExpr (visitStatement scriptTarget) params statements name context
  | BinaryOperatorExpr operator lhs rhs _ =>
      visitBinaryOperatorExpr (visitExpression scriptTarget) operator lhs rhs context
  | ReadPropExpr receiver name _ =>
      visitReadPropExpr (visitExpression scriptTarget) receiver name context
  | ReadKeyExpr receiver index _ =>
      visitReadKeyExpr (visitExpression scriptTarget) receiver index context
  | LiteralArrayExpr entries _ =>
      visitLiteralArrayExpr (visitExpression scriptTarget) ast entries context
  | LiteralMapExpr entries _ =>
      visitLiteralMapExpr (visitExpression scriptTarget) ast entries context
  | CommaExpr _ _ => visitCommaExpr context
  | WrappedNodeExpr node _ => visitWrappedNodeExpr node context
  | TypeofExpr expr _ => visitTypeofExpr (visitExpression scriptTarget) expr context
  end
with visitStatement (scriptTarget : ts.ScriptTarget) (stmt : Statement)
    (context : Context) {struct stmt} : M ts.Node :=
  match stmt with
  | DeclareVarStmt name value modifiers =>
      visitDeclareVarStmt scriptTarget (visitExpression scriptTarget) name value
        modifiers context
  | DeclareFunctionStmt name params statements =>
      visitDeclareFunctionStmt (visitStatement scriptTarget) name params statements
        context
  | ExpressionStatement expr =>
      visitExpressionStmt (visitExpression scriptTarget) expr context
  | ReturnStatement value => visitReturnStmt (visitExpression scriptTarget) value context
  | ClassStmt name => visitDeclareClassStmt scriptTarget name context
  | IfStmt condition trueCase falseCase =>
      visitIfStmt (visitExpression scriptTarget) (visitStatement scriptTarget)
        condition trueCase falseCase context
  | TryCatchStmt _ _ => visitTryCatchStmt context
  | ThrowStmt error => visitThrowStmt (visitExpression scriptTarget) error context
  | CommentStmt _ => visitCommentStmt context
  | JSDocCommentStmt toString => visitJSDocCommentStmt toString context
  end.

(** ** Entry points

    Each entry point builds a fresh visitor around the caller's import
    manager; the result is the completion and the visitor's final state,
    whose [imports] is the caller's manager after the translation. *)

Definition translateExpression (expression : Expression) (imports : ImportManager)
    (scriptTarget : ts.ScriptTarget) : Completion ts.Node * VisitorState :=
  visitExpression scriptTarget expression (mkContext false) (newVisitor imports).

Definition translateStatement (statement : Statement) (imports : ImportManager)
    (scriptTarget : ts.ScriptTarget) : Completion ts.Node * VisitorState :=
  visitStatement scriptTarget statement (mkContext true) (newVisitor imports).

(** ** Specification-level definitions *)

(** The alias table in which the [k]-th module of [modules] has the alias
    [prefix] followed by [k]. *)
Definition aliasTable (prefix : string) (modules : list string)
  : JsMap.t string string :=
  imap (λ k m, (m, prefix +:+ pretty k)) modules.

(** The modules a sequence of calls imports, each once, in the order of
    their first call that needs an import; [seen] are those imported
    before the sequence. *)
Fixpoint firstSeen (rw : ImportRewriter) (seen : list string)
    (calls : list (string * string)) : list string :=
  match calls with
  | [] => seen
  | (moduleName, originalSymbol) :: calls' =>
      if shouldImportSymbol rw (rewriteSymbol rw originalSymbol moduleName) moduleName
         && negb (bool_decide (moduleName ∈ seen))
      then firstSeen rw (seen ++ [moduleName]) calls'
      else firstSeen rw seen calls'
  end.

Definition importedModules (rw : ImportRewriter) (calls : list (string * string))
  : list string := firstSeen rw [] calls.

(** The manager's state is the alias table of [modules]. *)
Definition tracks (this : ImportManager) (modules : list string) : Prop :=
  specifierToIdentifier this = aliasTable (prefix this) modules
  ∧ nextIndex this = length modules
  ∧ NoDup modules.


(** What a call with arguments [call] returns on a manager whose alias
    table is that of [modules]. *)
Definition expectedImport (rw : ImportRewriter) (prefix : string)
    (modules : list string) (call : string * string) : NamedImport :=
  let symbol := rewriteSymbol rw call.2 call.1 in
  {| moduleImport :=
       if shouldImportSymbol rw symbol call.1
       then JsMap.get (aliasTable prefix modules) call.1 else None;
     symbol := symbol |}.

(** The import list of a manager whose alias table is that of [modules]. *)
Definition expectedImports (rw : ImportRewriter) (prefix : string)
    (contextPath : string) (modules : list string) : list Import :=
  imap (λ k m, {| specifier := rewriteSpecifier rw m contextPath;
                  qualifier := prefix +:+ pretty k |}) modules.

(** A rewriting policy that leaves the symbols of [@angular/core]
    unimported, as the policy for the core package itself does. *)
Definition coreImportRewriter : ImportRewriter := {|
  shouldImportSymbol := λ _ specifier, negb (bool_decide (specifier = "@angular/core"));
  rewriteSymbol := λ symbol _, symbol;
  rewriteSpecifier := λ specifier _, specifier;
|}.

(** Three calls on the default manager: [rxjs] twice around [@angular/core]. *)
Definition rxjsCalls : list (string * string) :=
  [("rxjs", "Observable"); ("@angular/core", "Observable"); ("rxjs", "Observable")].

(** A template piece of the given kind for a serialized message part. *)
Definition templatePiece (kind : ts.SyntaxKind) (part : CookedRaw) : ts.Node :=
  ts.synthesized (ts.TemplateLiteralLike kind (cooked part) (raw part)).

(** The spans of a localized string with [N] embedded expressions, given
    their translations [resolved]: the [k]-th pairs the [k]-th translation
    with message part [k + 1], as a tail when it is the last of the [N]
    and as a middle otherwise. *)
Definition localizedTemplateSpans {E} (ast : LocalizedStringOf E) (N : nat)
    (resolved : list ts.Node) : list ts.Node :=
  imap (λ k n,
          ts.createTemplateSpan n
            (templatePiece (if decide (k = N - 1) then ts.TemplateTail
                            else ts.TemplateMiddle)
               (serializeI18nTemplatePart ast (S k)))) resolved.

(** The expression kinds whose visitor method calls [setSourceMapRange]
    on the node it built. *)
Definition annotating (ast : Expression) : bool :=
  match ast with
  | ReadVarExpr _ _ | InvokeMethodExpr _ _ _ _ | InvokeFunctionExpr _ _ _ _
  | LiteralExpr _ _ | LiteralArrayExpr _ _ | LiteralMapExpr _ _ => true
  | _ => false
  end.


(** The node an assignment form returns for the assignment [result] when
    it parenthesizes by context. *)
Definition inContext (context : Context) (result : ts.Node) : ts.Node :=
  if isStatement context then result else ts.createParen result.

(** A computation that keeps every cached source handle. *)
Definition keepsSources {A} (m : M A) : Prop :=
  ∀ s, externalSourceFiles s ⊆ externalSourceFiles (m s).2.

(** ** Sample IR *)

Definition literal1 : Expression := LiteralExpr (LNumber 1) None.

(** [x = 1] *)
Definition assignX : Expression := WriteVarExpr "x" literal1 None.

(** [a.b = 1] *)
Definition assignAB : Expression :=
  WritePropExpr (ReadVarExpr "a" None) "b" literal1 None.

(** [a[k] = 1] *)
Definition assignAK : Expression :=
  WriteKeyExpr (ReadVarExpr "a" None) (ReadVarExpr "k" None) literal1 None.

(** [a.b = (x = 1)] and [a[k] = (x = 1)] *)
Definition assignABX : Expression :=
  WritePropExpr (ReadVarExpr "a" None) "b" assignX None.
Definition assignAKX : Expression :=
  WriteKeyExpr (ReadVarExpr "a" None) (ReadVarExpr "k" None) assignX None.

(** A span of [a.ts], from offset 3 to offset 9. *)
Definition spanA : ParseSourceSpan :=
  let file := {| content := "c ? t : f"; url := "a.ts" |} in
  {| start := {| file := file; offset := 3 |};
     end_ := {| file := file; offset := 9 |} |}.

(** The translated nodes of the samples. *)
Definition tsOne : ts.Node := ts.createLiteral (ts.ofNumber 1).
Definition tsAssignX : ts.Node :=
  ts.createBinary (ts.createIdentifier "x") ts.EqualsToken tsOne.
Definition tsAB : ts.Node :=
  ts.createPropertyAccess (ts.createIdentifier "a") (inl "b").
Definition tsAK : ts.Node :=
  ts.createElementAccess (ts.createIdentifier "a") (ts.createIdentifier "k").

(** [c ? t : <null>], without and with a comma expression as condition. *)
Definition conditionalNoElse : Expression :=
  ConditionalExpr (ReadVarExpr "c" None) (ReadVarExpr "t" None) None None.
Definition conditionalCommaNoElse : Expression :=
  ConditionalExpr (CommaExpr [] None) (ReadVarExpr "t" None) None None.

(** [c ? t : f], carrying the span [spanA]; its operands carry none. *)
Definition conditionalSpanned : Expression :=
  ConditionalExpr (ReadVarExpr "c" None) (ReadVarExpr "t" None)
    (Some (ReadVarExpr "f" None)) (Some spanA).

(** What [setSourceMapRange] leaves on the node [n] produced for [ast] by
    a visit from state [s] to state [s']: for a span with a truthy URL,
    the range of the span with the handle [s'] caches for the URL, which
    is the handle [s] cached if it cached one; no range otherwise. *)
Definition annotatedFrom (ast : Expression) (s s' : VisitorState) (n : ts.Node)
  : Prop :=
  match sourceSpan ast with
  | Some span =>
      let u := url (file (start span)) in
      if truthy u then
        ∃ h, externalSourceFiles s' !! u = Some h
             ∧ ts.sourceMapRange (ts.emitNode n)
               = Some {| ts.pos := offset (start span);
                         ts.end_ := offset (end_ span);
                         ts.source := Some h |}
             ∧ (∀ h0, externalSourceFiles s !! u = Some h0 → h = h0)
      else ts.sourceMapRange (ts.emitNode n) = None
  | None => ts.sourceMapRange (ts.emitNode n) = None
  end.

(** ** What the visitor can translate *)

(** [l] has at least [n] elements and the first [n] satisfy [f]. *)
Fixpoint allFirst {A} (f : A → bool) (l : list A) (n : nat) {struct l} : bool :=
  match l with
  | [] => match n with 0 => true | S _ => false end
  | x :: l' => match n with 0 => true | S n' => f x && allFirst f l' n' end
  end.

(** The IR without a construct that the visitor's methods raise on: no
    comma expression, class, try/catch or bare comment; a symbol name on
    every external reference; a false case on every conditional; an operator of the
    table on every binary operator; for a localized string, a target
    from ES2015 on and an embedded expression for every message part
    after the first.  Only the sub-trees a visit reaches count: the
    parts of a comma expression and the expressions of a localized
    string beyond its message parts are not visited. *)
Fixpoint translatable (scriptTarget : ts.ScriptTarget) (ast : Expression) : bool :=
  match ast with
  | ReadVarExpr _ _ | LiteralExpr _ _ | WrappedNodeExpr _ _ => true
  | WriteVarExpr _ value _ => translatable scriptTarget value
  | WriteKeyExpr receiver index value _ =>
      translatable scriptTarget receiver && translatable scriptTarget index
      && translatable scriptTarget value
  | WritePropExpr receiver _ value _ =>
      translatable scriptTarget receiver && translatable scriptTarget value
  | InvokeMethodExpr receiver _ args _ =>
      translatable scriptTarget receiver && forallb (translatable scriptTarget) args
  | InvokeFunctionExpr fn args _ _ =>
      translatable scriptTarget fn && forallb (translatable scriptTarget) args
  | InstantiateExpr classExpr args _ =>
      translatable scriptTarget classExpr && forallb (translatable scriptTarget) args
  | LocalizedString localized _ =>
      bool_decide (ts.ScriptTarget_value ts.ES2015 ≤ ts.ScriptTarget_value scriptTarget)
      && (bool_decide (length (messageParts localized) = 1)
          || allFirst (translatable scriptTarget) (expressions localized)
               (length (messageParts localized) - 1))
  | ExternalExpr value _ =>
      match name value with Some _ => true | None => false end
  | ConditionalExpr condition trueCase falseCase _ =>
      translatable scriptTarget condition && translatable scriptTarget trueCase
      && match falseCase with
         | Some falseCase => translatable scriptTarget falseCase
         | None => false
         end
  | NotExpr condition _ | AssertNotNull condition _ => translatable scriptTarget condition
  | CastExpr value _ => translatable scriptTarget value
  | FunctionExpr _ statements _ _ => forallb (translatableStmt scriptTarget) statements
  | BinaryOperatorExpr operator lhs rhs _ =>
      JsMap.has BINARY_OPERATORS operator
      && translatable scriptTarget lhs && translatable scriptTarget rhs
  | ReadPropExpr receiver _ _ => translatable scriptTarget receiver
  | ReadKeyExpr receiver index _ =>
      translatable scriptTarget receiver && translatable scriptTarget index
  | LiteralArrayExpr entries _ => forallb (translatable scriptTarget) entries
  | LiteralMapExpr entries _ =>
      forallb (λ entry, translatable scriptTarget (value entry)) entries
  | CommaExpr _ _ => false
  | TypeofExpr expr _ => translatable scriptTarget expr
  end
with translatableStmt (scriptTarget : ts.ScriptTarget) (stmt : Statement) : bool :=
  match stmt with
  | DeclareVarStmt _ value _ =>
      match value with Some value => translatable scriptTarget value | None => true end
  | DeclareFunctionStmt _ _ statements =>
      forallb (translatableStmt scriptTarget) statements
  | ExpressionStatement expr => translatable scriptTarget expr
  | ReturnStatement value => translatable scriptTarget value
  | ClassStmt _ | TryCatchStmt _ _ | CommentStmt _ => false
  | IfStmt condition trueCase falseCase =>
      translatable scriptTarget condition
      && forallb (translatableStmt scriptTarget) trueCase
      && forallb (translatableStmt scriptTarget) falseCase
  | ThrowStmt error => translatable scriptTarget error
  | JSDocCommentStmt _ => true
  end.


(** A computation that completes from every state, and one that
    completes from none; [completes b m] is the first for [b = true] and
    the second for [b = false]. *)
Definition alwaysCompletes {A} (m : M A) : Prop :=
  ∀ s, ∃ a s', m s = (Normal a, s').

Definition neverCompletes {A} (m : M A) : Prop :=
  ∀ s a s', m s ≠ (Normal a, s').

Definition completes (b : bool) {A} (m : M A) : Prop :=
  if b then alwaysCompletes m else neverCompletes m.

(** ** What a visit does to the visitor's state *)

(** A computation whose final state is related by [R] to the state it
    starts from, however it completes. *)
Definition keeps (R : relation VisitorState) {A} (m : M A) : Prop :=
  ∀ s, R s (m s).2.

(** The import manager of [s'] is that of [s] with entries added at the
    end: same policy and prefix, a counter that has not decreased, and an
    alias table that is still one if it was. *)
Definition importsGrow (s s' : VisitorState) : Prop :=
  rewriter (imports s') = rewriter (imports s)
  ∧ prefix (imports s') = prefix (imports s)
  ∧ nextIndex (imports s) ≤ nextIndex (imports s')
  ∧ (∃ more, specifierToIdentifier (imports s')
             = specifierToIdentifier (imports s) ++ more)
  ∧ (∀ modules, tracks (imports s) modules →
       ∃ more, tracks (imports s') (modules ++ more)).

(** The recorder of [s'] was told what that of [s] was, then of further
    nodes, identifiers all. *)
Definition recordsGrow (s s' : VisitorState) : Prop :=
  ∃ more, recordedIdentifiers s' = recordedIdentifiers s ++ more
          ∧ Forall (λ node, ts.isIdentifier node = true) more.

(** The source cache holds one handle per URL: the handle cached for a
    URL carries that URL as file name, handles of different URLs have
    different identities, and the handles created are those cached. *)
Definition sourceCacheOk (s : VisitorState) : Prop :=
  (∀ url h, externalSourceFiles s !! url = Some h →
     ts.fileName h = url ∧ ts.sourceId h < sourcesCreated s)
  ∧ (∀ url1 url2 h1 h2,
       externalSourceFiles s !! url1 = Some h1 →
       externalSourceFiles s !! url2 = Some h2 →
       ts.sourceId h1 = ts.sourceId h2 → url1 = url2)
  ∧ size (externalSourceFiles s) = sourcesCreated s.

Definition sourceCacheStaysOk (s s' : VisitorState) : Prop :=
  sourceCacheOk s → sourceCacheOk s'.

(** ** Sample IR, continued *)

(** [function () { if (x = 1) {} }], an [if] whose condition is an
    assignment. *)
Definition ifAssignX : Statement := IfStmt assignX [] [].
Definition functionIfAssignX : Expression := FunctionExpr [] [ifAssignX] None None.

(** A wrapped identifier node. *)
Definition wrappedFoo : Expression := WrappedNodeExpr (ts.createIdentifier "foo") None.

(** [rxjs.Observable], as an external reference. *)
Definition externalObservable : Expression :=
  ExternalExpr {| moduleName := Some "rxjs"; name := Some "Observable" |} None.

(** ** The external references of the IR, in visit order *)

(** [f] over the first [n] elements of [l], concatenated. *)
Fixpoint flatFirst {A B} (f : A → list B) (l : list A) (n : nat) {struct l} : list B :=
  match l with
  | [] => []
  | x :: l' => match n with 0 => [] | S n' => f x ++ flatFirst f l' n' end
  end.

(** The (module name, symbol name) pairs of the external references that
    a completed visit resolves through the import manager, in the order
    the visit reaches them. *)
Fixpoint externalCalls (ast : Expression) : list (string * string) :=
  match ast with
  | ReadVarExpr _ _ | LiteralExpr _ _ | WrappedNodeExpr _ _ | CommaExpr _ _ => []
  | WriteVarExpr _ value _ => externalCalls value
  | WriteKeyExpr receiver index value _ =>
      externalCalls receiver ++ externalCalls index ++ externalCalls value
  | WritePropExpr receiver _ value _ => externalCalls receiver ++ externalCalls value
  | InvokeMethodExpr receiver _ args _ =>
      externalCalls receiver ++ flat_map externalCalls args
  | InvokeFunctionExpr fn args _ _ => externalCalls fn ++ flat_map externalCalls args
  | InstantiateExpr classExpr args _ =>
      externalCalls classExpr ++ flat_map externalCalls args
  | LocalizedString localized _ =>
      if decide (length (messageParts localized) = 1) then []
      else flatFirst externalCalls (expressions localized)
             (length (messageParts localized) - 1)
  | ExternalExpr value _ =>
      match name value, moduleName value with
      | Some name, Some moduleName => [(moduleName, name)]
      | _, _ => []
      end
  | ConditionalExpr condition trueCase falseCase _ =>
      externalCalls condition ++ externalCalls trueCase
      ++ match falseCase with Some falseCase => externalCalls falseCase | None => [] end
  | NotExpr condition _ | AssertNotNull condition _ => externalCalls condition
  | CastExpr value _ => externalCalls value
  | FunctionExpr _ statements _ _ => flat_map externalCallsStmt statements
  | BinaryOperatorExpr _ lhs rhs _ => externalCalls lhs ++ externalCalls rhs
  | ReadPropExpr receiver _ _ => externalCalls receiver
  | ReadKeyExpr receiver index _ => externalCalls receiver ++ externalCalls index
  | LiteralArrayExpr entries _ => flat_map externalCalls entries
  | LiteralMapExpr entries _ => flat_map (λ entry, externalCalls (value entry)) entries
  | TypeofExpr expr _ => externalCalls expr
  end
with externalCallsStmt (stmt : Statement) : list (string * string) :=
  match stmt with
  | DeclareVarStmt _ value _ =>
      match value with Some value => externalCalls value | None => [] end
  | DeclareFunctionStmt _ _ statements => flat_map externalCallsStmt statements
  | ExpressionStatement expr => externalCalls expr
  | ReturnStatement value => externalCalls value
  | IfStmt condition trueCase falseCase =>
      externalCalls condition ++ flat_map externalCallsStmt trueCase
      ++ flat_map externalCallsStmt falseCase
  | ThrowStmt error => externalCalls error
  | ClassStmt _ | TryCatchStmt _ _ | CommentStmt _ | JSDocCommentStmt _ => []
  end.

(** A computation that, when it completes, leaves the import manager as
    the calls [calls] leave the one it started with. *)
Definition importsAfter (calls : list (string * string)) {A} (m : M A) : Prop :=
  ∀ s a s', m s = (Normal a, s') →
    imports s' = (generateNamedImports calls (imports s)).2.

(** [[rxjs.Observable, core.Component, new rxjs.Subject()]] with [core]
    standing for [@angular/core]. *)
Definition threeReferences : Expression :=
  LiteralArrayExpr
    [ externalObservable;
      ExternalExpr {| moduleName := Some "@angular/core"; name := Some "Component" |} None;
      InstantiateExpr
        (ExternalExpr {| moduleName := Some "rxjs"; name := Some "Subject" |} None)
        [] None ] None.

(** ** TypeTranslatorVisitor: the type visitor

    The [TypeVisitor] methods of the class.  Its [ExpressionVisitor]
    methods, which [visitExpressionType] reaches through
    [type.value.visitExpression(this, context)], are a parameter of this
    part, with the type [X] of what they return.  The visitor holds the
    import manager and nothing else.

    [visitArrayType] calls [type.visitType(this, context)] on the array
    type it was given, which dispatches to [visitArrayType] again; so
    that the dispatch can be written down, a computation of this part
    carries a bound on the depth of nested [visitType] calls and returns
    [None] when the bound is exceeded. *)

(** Modelled from the spec: the builtin-type tags are declared in
    [@angular/compiler].  The six tags the [switch] names are
    constructors; any other tag is [Other], carrying the name the reverse
    mapping [BuiltinTypeName[tag]] gives it. *)
Module BuiltinTypeName.
Inductive t :=
| Bool | Dynamic | Int | Number | String | None
| Other (name : string).
End BuiltinTypeName.

(** Modelled from the spec: the IR of types is declared in
    [@angular/compiler]; [type.visitType(visitor, context)] calls the
    visitor's method for the class of [type], on [type] itself. *)
Inductive Type_ :=
| BuiltinType (name : BuiltinTypeName.t)
| ExpressionType (value : Expression) (typeParams : option (list Type_))
| ArrayType (of_ : Type_)
| MapType (valueType : option Type_).

(** The type nodes of the [typescript] package the visitor builds. *)
Module tsTypes.
Inductive KeywordKind :=
| BooleanKeyword | AnyKeyword | NumberKeyword | StringKeyword | NeverKeyword.

Inductive TypeNode (X : Type) :=
| KeywordTypeNode (kind : KeywordKind)
| TypeReferenceNode (typeName : X) (typeArguments : option (list (TypeNode X)))
| ArrayTypeNode (elementType : TypeNode X)
| ParameterDeclaration (name : string) (type : TypeNode X)
| IndexSignature (parameters : list (TypeNode X)) (type : option (TypeNode X))
| TypeLiteralNode (members : list (TypeNode X)).
Arguments KeywordTypeNode {X}.
Arguments TypeReferenceNode {X}.
Arguments ArrayTypeNode {X}.
Arguments ParameterDeclaration {X}.
Arguments IndexSignature {X}.
Arguments TypeLiteralNode {X}.

Definition createKeywordTypeNode {X} (kind : KeywordKind) : TypeNode X :=
KeywordTypeNode kind.
Definition createTypeReferenceNode {X} (typeName : X)
  (typeArguments : option (list (TypeNode X))) : TypeNode X :=
TypeReferenceNode typeName typeArguments.
Definition createArrayTypeNode {X} (elementType : TypeNode X) : TypeNode X :=
ArrayTypeNode elementType.
Definition createParameter {X} (name : string) (type : TypeNode X) : TypeNode X :=
ParameterDeclaration name type.
Definition createIndexSignature {X} (parameters : list (TypeNode X))
  (type : option (TypeNode X)) : TypeNode X :=
IndexSignature parameters type.
Definition createTypeLiteralNode {X} (members : list (TypeNode X)) : TypeNode X :=
TypeLiteralNode members.
End tsTypes.

(** Computations of the type visitor: on the import manager, completing
    normally or by an exception, or not returning within the depth bound
    ([None]). *)
Definition MT (A : Type) : Type :=
  ImportManager → option (Completion A * ImportManager).

Definition retT {A} (a : A) : MT A := λ s, Some (Normal a, s).

Definition throwT {A} (e : JsException) : MT A := λ s, Some (Thrown e, s).

Definition tooDeep {A} : MT A := λ _, None.

Definition bindT {A B} (m : MT A) (k : A → MT B) : MT B :=
  λ s, match m s with
       | Some (Normal a, s') => k a s'
       | Some (Thrown e, s') => Some (Thrown e, s')
       | None => None
       end.

Fixpoint mapMT {A B} (f : A → MT B) (l : list A) : MT (list B) :=
  match l with
  | [] => retT []
  | x :: l' => bindT (f x) (λ y, bindT (mapMT f l') (λ ys, retT (y :: ys)))
  end.

Section TypeTranslatorVisitor.
Context {X : Type}.
Variable visitExpression_ : Expression → Context → MT X.

Definition visitBuiltinType (name : BuiltinTypeName.t) (context : Context)
: MT (tsTypes.TypeNode X) :=
match name with
| BuiltinTypeName.Bool => retT (tsTypes.createKeywordTypeNode tsTypes.BooleanKeyword)
| BuiltinTypeName.Dynamic => retT (tsTypes.createKeywordTypeNode tsTypes.AnyKeyword)
| BuiltinTypeName.Int | BuiltinTypeName.Number =>
    retT (tsTypes.createKeywordTypeNode tsTypes.NumberKeyword)
| BuiltinTypeName.String => retT (tsTypes.createKeywordTypeNode tsTypes.StringKeyword)
| BuiltinTypeName.None => retT (tsTypes.createKeywordTypeNode tsTypes.NeverKeyword)
| BuiltinTypeName.Other name => throwT (Error ("Unsupported builtin type: " +:+ name))
end.

(** The methods below, over the dispatch [t.visitType(this, context)]. *)
Section TypeMethods.
Variable visitType_ : Type_ → Context → MT (tsTypes.TypeNode X).

Definition visitExpressionType (value : Expression) (typeParams : option (list Type_))
(context : Context) : MT (tsTypes.TypeNode X) :=
bindT (visitExpression_ value context) (λ expr,
bindT (match typeParams with
     | Some typeParams =>
         bindT (mapMT (λ param, visitType_ param context) typeParams)
           (λ typeArgs, retT (Some typeArgs))
     | None => retT None
     end) (λ typeArgs,
retT (tsTypes.createTypeReferenceNode expr typeArgs))).

Definition visitArrayType (type : Type_) (context : Context)
: MT (tsTypes.TypeNode X) :=
bindT (visitType_ type context) (λ element,
retT (tsTypes.createArrayTypeNode element)).

Definition visitMapType (valueType : option Type_) (context : Context)
: MT (tsTypes.TypeNode X) :=
let parameter :=
tsTypes.createParameter "key" (tsTypes.createKeywordTypeNode tsTypes.StringKeyword) in
bindT (match valueType with
     | Some valueType =>
         bindT (visitType_ valueType context) (λ t, retT (Some t))
     | None => retT None
     end) (λ typeArgs,
let indexSignature := tsTypes.createIndexSignature [parameter] typeArgs in
retT (tsTypes.createTypeLiteralNode [indexSignature])).
End TypeMethods.

(** [type.visitType(this, context)], within [depth] nested calls. *)
Fixpoint visitType (depth : nat) (type : Type_) (context : Context)
: MT (tsTypes.TypeNode X) :=
match depth with
| 0 => tooDeep
| S depth' =>
    match type with
    | BuiltinType name => visitBuiltinType name context
    | ExpressionType value typeParams =>
        visitExpressionType (visitType depth') value typeParams context
    | ArrayType _ => visitArrayType (visitType depth') type context
    | MapType valueType => visitMapType (visitType depth') valueType context
    end
end.

Definition translateType (depth : nat) (type : Type_) (imports : ImportManager)
: option (Completion (tsTypes.TypeNode X) * ImportManager) :=
visitType depth type (mkContext false) imports.
End TypeTranslatorVisitor.

(** A visit of [type] reaches an array type. *)
Fixpoint reachesArray (type : Type_) : bool :=
  match type with
  | BuiltinType _ => false
  | ExpressionType _ typeParams =>
      match typeParams with
      | Some typeParams => existsb reachesArray typeParams
      | None => false
      end
  | ArrayType _ => true
  | MapType valueType =>
      match valueType with Some valueType => reachesArray valueType | None => false end
  end.



(** Sample types: a map of arrays of strings, and a map of numbers. *)
Definition mapOfArrays : Type_ :=
  MapType (Some (ArrayType (BuiltinType BuiltinTypeName.String))).

(** Expression methods that return the name [T] for every expression. *)
Definition namedT : Expression → Context → MT string := λ _ _, retT "T".

(** ** Where the context matters *)

(** No write-variable or write-indexed expression, and no [if] whose
    condition has one, where the incoming context reaches: these are the
    places that read [context.isStatement], and a statement other than
    [if], a write-indexed operand and the blocks of an [if] get a context
    of their own. *)
Fixpoint contextFree (ast : Expression) : bool :=
  match ast with
  | ReadVarExpr _ _ | LiteralExpr _ _ | ExternalExpr _ _ | WrappedNodeExpr _ _
  | CommaExpr _ _ => true
  | WriteVarExpr _ _ _ | WriteKeyExpr _ _ _ _ => false
  | WritePropExpr receiver _ value _ => contextFree receiver && contextFree value
  | InvokeMethodExpr receiver _ args _ => contextFree receiver && forallb contextFree args
  | InvokeFunctionExpr fn args _ _ => contextFree fn && forallb contextFree args
  | InstantiateExpr classExpr args _ =>
      contextFree classExpr && forallb contextFree args
  | LocalizedString localized _ => forallb contextFree (expressions localized)
  | ConditionalExpr condition trueCase falseCase _ =>
      contextFree condition && contextFree trueCase
      && match falseCase with Some falseCase => contextFree falseCase | None => true end
  | NotExpr condition _ | AssertNotNull condition _ => contextFree condition
  | CastExpr value _ => contextFree value
  | FunctionExpr _ statements _ _ => forallb contextFreeStmt statements
  | BinaryOperatorExpr _ lhs rhs _ => contextFree lhs && contextFree rhs
  | ReadPropExpr receiver _ _ => contextFree receiver
  | ReadKeyExpr receiver index _ => contextFree receiver && contextFree index
  | LiteralArrayExpr entries _ => forallb contextFree entries
  | LiteralMapExpr entries _ => forallb (λ entry, contextFree (value entry)) entries
  | TypeofExpr expr _ => contextFree expr
  end
with contextFreeStmt (stmt : Statement) : bool :=
  match stmt with
  | IfStmt condition _ _ => contextFree condition
  | _ => true
  end.

(** Two computations that do the same from every state, when [b] holds. *)
Definition agree (b : bool) {A} (m1 m2 : M A) : Prop :=
  b = true → ∀ s, m1 s = m2 s.

(** ** Erased constructs *)

(** The IR without its type casts and non-null assertions, wherever a
    visit reaches them. *)
Fixpoint erase (ast : Expression) : Expression :=
  match ast with
  | ReadVarExpr _ _ | LiteralExpr _ _ | ExternalExpr _ _ | WrappedNodeExpr _ _
  | CommaExpr _ _ => ast
  | WriteVarExpr name value span => WriteVarExpr name (erase value) span
  | WriteKeyExpr receiver index value span =>
      WriteKeyExpr (erase receiver) (erase index) (erase value) span
  | WritePropExpr receiver name value span =>
      WritePropExpr (erase receiver) name (erase value) span
  | InvokeMethodExpr receiver name args span =>
      InvokeMethodExpr (erase receiver) name (map erase args) span
  | InvokeFunctionExpr fn args pure span =>
      InvokeFunctionExpr (erase fn) (map erase args) pure span
  | InstantiateExpr classExpr args span =>
      InstantiateExpr (erase classExpr) (map erase args) span
  | LocalizedString localized span =>
      LocalizedString
        {| messageParts := messageParts localized;
           expressions := map erase (expressions localized);
           serializeI18nHead := serializeI18nHead localized;
           serializeI18nTemplatePart := serializeI18nTemplatePart localized |} span
  | ConditionalExpr condition trueCase falseCase span =>
      ConditionalExpr (erase condition) (erase trueCase)
        (match falseCase with Some falseCase => Some (erase falseCase) | None => None end)
        span
  | NotExpr condition span => NotExpr (erase condition) span
  | AssertNotNull condition _ => erase condition
  | CastExpr value _ => erase value
  | FunctionExpr params statements name span =>
      FunctionExpr params (map eraseStmt statements) name span
  | BinaryOperatorExpr operator lhs rhs span =>
      BinaryOperatorExpr operator (erase lhs) (erase rhs) span
  | ReadPropExpr receiver name span => ReadPropExpr (erase receiver) name span
  | ReadKeyExpr receiver index span => ReadKeyExpr (erase receiver) (erase index) span
  | LiteralArrayExpr entries span => LiteralArrayExpr (map erase entries) span
  | LiteralMapExpr entries span =>
      LiteralMapExpr
        (map (λ entry, {| key := key entry; value := erase (value entry);
                          quoted := quoted entry |}) entries) span
  | TypeofExpr expr span => TypeofExpr (erase expr) span
  end
with eraseStmt (stmt : Statement) : Statement :=
  match stmt with
  | DeclareVarStmt name value modifiers =>
      DeclareVarStmt name
        (match value with Some value => Some (erase value) | None => None end) modifiers
  | DeclareFunctionStmt name params statements =>
      DeclareFunctionStmt name params (map eraseStmt statements)
  | ExpressionStatement expr => ExpressionStatement (erase expr)
  | ReturnStatement value => ReturnStatement (erase value)
  | IfStmt condition trueCase falseCase =>
      IfStmt (erase condition) (map eraseStmt trueCase) (map eraseStmt falseCase)
  | ThrowStmt error => ThrowStmt (erase error)
  | ClassStmt _ | TryCatchStmt _ _ | CommentStmt _ | JSDocCommentStmt _ => stmt
  end.

(** [(<any>a)!.b = <number>(c!)] *)
Definition castSample : Expression :=
  WritePropExpr (AssertNotNull (CastExpr (ReadVarExpr "a" None) None) None) "b"
    (CastExpr (AssertNotNull (ReadVarExpr "c" None) None) (Some spanA)) None.

(** * Properties *)

(** ** JsMap *)

Section JsMapFacts.
Context {K V : Type} `{EqDecision K}.
Implicit Types (m : JsMap.t K V) (k : K) (v : V).

Lemma JsMap_has_get m k : JsMap.has m k = true ↔ is_Some (JsMap.get m k).
Proof.
  unfold JsMap.has. destruct (JsMap.get m k); split; intros Hx;
    try done; try by eexists.
Qed.

Lemma JsMap_get_None m k : JsMap.get m k = None ↔ k ∉ m.*1.
Proof.
  induction m as [|[k' v'] m IH]; simpl.
  - split; [intros _; apply not_elem_of_nil | done].
  - case_decide as Hk; subst.
    + split; [done | intros []; left].
    + rewrite IH, not_elem_of_cons.
      split; [intros ?; split; [by intros -> | done] | by intros [_ ?]].
Qed.

Lemma JsMap_get_app_l m1 m2 k v :
  JsMap.get m1 k = Some v → JsMap.get (m1 ++ m2) k = Some v.
Proof.
  induction m1 as [|[k' v'] m1 IH]; simpl; [done|].
  case_decide; [done | apply IH].
Qed.

Lemma JsMap_get_app_r m1 m2 k :
  JsMap.get m1 k = None → JsMap.get (m1 ++ m2) k = JsMap.get m2 k.
Proof.
  induction m1 as [|[k' v'] m1 IH]; simpl; [done|].
  case_decide; [done | apply IH].
Qed.

Lemma JsMap_set_fresh m k v :
  JsMap.get m k = None → JsMap.set m k v = m ++ [(k, v)].
Proof.
  induction m as [|[k' v'] m IH]; simpl; [done|].
  case_decide; [done | intros Hg; by rewrite IH].
Qed.

Lemma JsMap_get_set_eq m k v : JsMap.get (JsMap.set m k v) k = Some v.
Proof.
  induction m as [|[k' v'] m IH]; simpl.
  - by rewrite decide_True.
  - case_decide as Hk; simpl.
    + by rewrite decide_True.
    + by rewrite decide_False.
Qed.
End JsMapFacts.

(** ** ImportManager *)

Section ImportManagerFacts.
Implicit Types (this : ImportManager) (modules : list string).

Lemma aliasTable_keys p modules : (aliasTable p modules).*1 = modules.
Proof.
  unfold aliasTable. rewrite fmap_imap. simpl.
  induction modules as [|m ms IH] using rev_ind; [done|].
  rewrite imap_app. simpl. by rewrite IH.
Qed.

Lemma aliasTable_snoc p modules m :
  aliasTable p (modules ++ [m])
  = aliasTable p modules ++ [(m, p +:+ pretty (length modules))].
Proof. unfold aliasTable. rewrite imap_app. simpl. by rewrite Nat.add_0_r. Qed.

Lemma aliasTable_get_None p modules m :
  JsMap.get (aliasTable p modules) m = None ↔ m ∉ modules.
Proof. by rewrite JsMap_get_None, aliasTable_keys. Qed.

Lemma aliasTable_get_lookup p modules k m :
  NoDup modules → modules !! k = Some m →
  JsMap.get (aliasTable p modules) m = Some (p +:+ pretty k).
Proof.
  induction modules as [|m' ms IH] using rev_ind; [done|].
  intros (Hnd & Hm' & _)%NoDup_app Hk.
  rewrite aliasTable_snoc.
  destruct (decide (k < length ms)) as [Hlt|Hge].
  - rewrite lookup_app_l in Hk by done.
    apply JsMap_get_app_l, IH; done.
  - assert (k = length ms) as ->.
    { apply lookup_lt_Some in Hk. rewrite length_app in Hk. simpl in Hk. lia. }
    rewrite list_lookup_middle in Hk by done. injection Hk as <-.
    rewrite JsMap_get_app_r.
    + simpl. by rewrite decide_True.
    + apply aliasTable_get_None. intros Hin. apply (Hm' m' Hin). left.
Qed.

Lemma aliasTable_get_Some p modules m a :
  NoDup modules → JsMap.get (aliasTable p modules) m = Some a →
  ∃ k, modules !! k = Some m ∧ a = p +:+ pretty k.
Proof.
  intros Hnd Hget.
  destruct (decide (m ∈ modules)) as [Hin|Hnin].
  - apply list_elem_of_lookup in Hin as [k Hk]. exists k. split; [done|].
    rewrite (aliasTable_get_lookup p modules k m Hnd Hk) in Hget. congruence.
  - apply (aliasTable_get_None p) in Hnin. congruence.
Qed.

Lemma alias_inj (p : string) (k1 k2 : nat) :
  p +:+ pretty k1 = p +:+ pretty k2 → k1 = k2.
Proof.
  intros Heq. apply (inj (String.append p)) in Heq. by apply (inj pretty) in Heq.
Qed.

Lemma firstSeen_app rw seen calls1 calls2 :
  firstSeen rw seen (calls1 ++ calls2)
  = firstSeen rw (firstSeen rw seen calls1) calls2.
Proof.
  revert seen. induction calls1 as [|[m s] cs IH]; intros seen; simpl; [done|].
  by destruct (_ && _).
Qed.

Lemma firstSeen_cons rw seen call calls :
  firstSeen rw seen (call :: calls)
  = firstSeen rw (firstSeen rw seen [call]) calls.
Proof. apply (firstSeen_app rw seen [call] calls). Qed.

Lemma firstSeen_extends rw seen calls :
  ∃ more, firstSeen rw seen calls = seen ++ more.
Proof.
  revert seen. induction calls as [|[m s] cs IH]; intros seen; simpl.
  - exists []. by rewrite app_nil_r.
  - destruct (_ && _).
    + destruct (IH (seen ++ [m])) as [more ->]. exists (m :: more).
      by rewrite <- app_assoc.
    + apply IH.
Qed.

Lemma firstSeen_NoDup rw seen calls :
  NoDup seen → NoDup (firstSeen rw seen calls).
Proof.
  revert seen. induction calls as [|[m s] cs IH]; intros seen Hnd; simpl; [done|].
  destruct (shouldImportSymbol _ _ _); simpl; [|by apply IH].
  case_bool_decide as Hin; simpl; [by apply IH|].
  apply IH, NoDup_app. split_and!; [done| |apply NoDup_singleton].
  intros x Hx ->%list_elem_of_singleton. done.
Qed.

(** One call, on a manager whose state is the alias table of [modules]. *)
Lemma generateNamedImport_tracks this modules moduleName originalSymbol :
  tracks this modules →
  let rw := rewriter this in
  let modules' := firstSeen rw modules [(moduleName, originalSymbol)] in
  let '(r, this') := generateNamedImport moduleName originalSymbol this in
  tracks this' modules'
  ∧ rewriter this' = rw ∧ prefix this' = prefix this
  ∧ symbol r = rewriteSymbol rw originalSymbol moduleName
  ∧ moduleImport r =
      if shouldImportSymbol rw (symbol r) moduleName
      then JsMap.get (aliasTable (prefix this) modules') moduleName
      else None.
Proof.
  intros (Hmap & Hnext & Hnd). unfold generateNamedImport. simpl.
  destruct (shouldImportSymbol _ _ _) eqn:Hshould; simpl.
  2:{ rewrite Hshould. done. }
  rewrite Hshould. unfold JsMap.has. rewrite Hmap.
  case_bool_decide as Hin; simpl.
  - destruct (JsMap.get (aliasTable (prefix this) modules) moduleName) eqn:Hget.
    2:{ apply aliasTable_get_None in Hget. done. }
    simpl. rewrite Hmap, Hget. done.
  - assert (JsMap.get (aliasTable (prefix this) modules) moduleName = None) as Hget
      by by apply aliasTable_get_None.
    rewrite Hget. simpl.
    rewrite JsMap_set_fresh by done. rewrite Hnext, <- aliasTable_snoc.
    unfold tracks. simpl. split_and!; try done.
    + by rewrite length_app, Nat.add_1_r.
    + apply NoDup_app. split_and!; [done| |apply NoDup_singleton].
      intros x Hx ->%list_elem_of_singleton. done.
Qed.

Lemma aliasTable_get_extends p modules more m a :
  JsMap.get (aliasTable p modules) m = Some a →
  JsMap.get (aliasTable p (modules ++ more)) m = Some a.
Proof. unfold aliasTable. rewrite imap_app. apply JsMap_get_app_l. Qed.

(** A sequence of calls, in closed form. *)
Lemma generateNamedImports_tracks calls : ∀ this modules,
  tracks this modules →
  let rw := rewriter this in
  let final := firstSeen rw modules calls in
  let '(results, this') := generateNamedImports calls this in
  tracks this' final
  ∧ rewriter this' = rw ∧ prefix this' = prefix this
  ∧ results = map (expectedImport rw (prefix this) final) calls.
Proof.
  induction calls as [|[m s] cs IH]; intros this modules Htr; [done|].
  cbn zeta.
  rewrite firstSeen_cons.
  cbn [generateNamedImports map].
  pose proof (generateNamedImport_tracks this modules m s Htr) as Hstep.
  destruct (generateNamedImport m s this) as [r this1]. cbn zeta in Hstep.
  destruct Hstep as (Htr1 & Hrw1 & Hp1 & Hsym & Himp).
  set (modules1 := firstSeen (rewriter this) modules [(m, s)]) in *.
  specialize (IH this1 modules1 Htr1). cbn zeta in IH. rewrite Hrw1, Hp1 in IH.
  destruct (generateNamedImports cs this1) as [rs this2].
  destruct IH as (Htr2 & Hrw2 & Hp2 & Hrs).
  split_and!; [done|done|done|].
  rewrite Hrs. f_equal.
  destruct r as [imp sym]; simpl in Hsym, Himp. unfold expectedImport; simpl.
  subst sym. f_equal. rewrite Himp.
  destruct (shouldImportSymbol _ _ _) eqn:Hshould; [|done].
  destruct (firstSeen_extends (rewriter this) modules1 cs) as [more ->].
  assert (m ∈ modules1) as Hin.
  { subst modules1. simpl. rewrite Hshould. simpl.
    case_bool_decide; simpl; [done|].
    apply elem_of_app. right. left. }
  destruct (JsMap.get (aliasTable (prefix this) modules1) m) eqn:Hget.
  - symmetry. by apply aliasTable_get_extends.
  - apply aliasTable_get_None in Hget. done.
Qed.

Lemma newImportManager_tracks rw p : tracks (newImportManager rw p) [].
Proof. split_and!; [done|done|apply NoDup_nil_2]. Qed.
End ImportManagerFacts.

Section ImportManagerResults.
Implicit Types (this : ImportManager) (modules : list string).

Lemma getAllImports_tracks this modules contextPath :
  tracks this modules →
  getAllImports contextPath this
  = expectedImports (rewriter this) (prefix this) contextPath modules.
Proof.
  intros (Hmap & _ & _). unfold getAllImports, JsMap.forEach, expectedImports.
  rewrite Hmap. unfold aliasTable.
  enough (∀ (alias : nat → string) ms,
            map (λ kv : string * string,
                   {| specifier := rewriteSpecifier (rewriter this) kv.1 contextPath;
                      qualifier := kv.2 |})
              (imap (λ k m, (m, alias k)) ms)
            = imap (λ k m, {| specifier := rewriteSpecifier (rewriter this) m contextPath;
                              qualifier := alias k |}) ms) as Hgen
    by apply (Hgen (λ k, prefix this +:+ pretty k)).
  intros alias ms. revert alias.
  induction ms as [|m ms IH]; intros alias; simpl; [done|].
  f_equal. apply (IH (alias ∘ S)).
Qed.

Lemma firstSeen_known rw seen calls :
  (∀ call, call ∈ calls →
     shouldImportSymbol rw (rewriteSymbol rw call.2 call.1) call.1 = true →
     call.1 ∈ seen) →
  firstSeen rw seen calls = seen.
Proof.
  induction calls as [|[m s] cs IH]; intros Hknown; simpl; [done|].
  destruct (shouldImportSymbol _ _ _) eqn:Hshould; simpl.
  - rewrite bool_decide_eq_true_2; simpl.
    + apply IH. intros c Hc. apply Hknown. by right.
    + apply (Hknown (m, s)); [left | done].
  - apply IH. intros c Hc. apply Hknown. by right.
Qed.

Lemma firstSeen_imported rw seen calls m s :
  (m, s) ∈ calls →
  shouldImportSymbol rw (rewriteSymbol rw s m) m = true →
  m ∈ firstSeen rw seen calls.
Proof.
  revert seen. induction calls as [|[m' s'] cs IH]; intros seen Hin Hshould.
  { by apply elem_of_nil in Hin. }
  apply elem_of_cons in Hin as [[= <- <-]|Hin]; simpl.
  - rewrite Hshould. simpl. case_bool_decide as Hseen; simpl.
    + destruct (firstSeen_extends rw seen cs) as [more ->].
      apply elem_of_app. by left.
    + destruct (firstSeen_extends rw (seen ++ [m]) cs) as [more ->].
      rewrite !elem_of_app, list_elem_of_singleton. auto.
  - destruct (_ && _); by apply IH.
Qed.

Lemma generateNamedImports_fresh rw p calls :
  let modules := importedModules rw calls in
  let '(results, this') := generateNamedImports calls (newImportManager rw p) in
  tracks this' modules ∧ rewriter this' = rw ∧ prefix this' = p
  ∧ results = map (expectedImport rw p modules) calls.
Proof.
  apply (generateNamedImports_tracks calls (newImportManager rw p) []),
    newImportManager_tracks.
Qed.
End ImportManagerResults.

(** C3.  On a fresh manager, any two calls of a sequence with the same
    module and symbol return the same alias.  A call that needs an import
    returns an alias: the prefix followed by the rank of its module among
    the imported modules in first-seen order; so two calls that need an
    import, for different modules, return two aliases, and different
    ones, whatever the symbols.  With the default policy every call
    needs an import and returns an alias.  The first-seen order lists no
    module twice and its length is the counter, so no number is used
    twice. *)
Theorem generateNamedImport_alias_determinism
    (rw : ImportRewriter) (p : string) (calls : list (string * string))
    (results : list NamedImport) (this' : ImportManager)
    (i j : nat) (mi si mj sj : string) (ri rj : NamedImport) :
  generateNamedImports calls (newImportManager rw p) = (results, this') →
  calls !! i = Some (mi, si) → calls !! j = Some (mj, sj) →
  results !! i = Some ri → results !! j = Some rj →
  (mi = mj → si = sj → moduleImport ri = moduleImport rj)
  ∧ (shouldImportSymbol rw (rewriteSymbol rw si mi) mi = true →
     ∃ k, importedModules rw calls !! k = Some mi
          ∧ moduleImport ri = Some (p +:+ pretty k))
  ∧ (shouldImportSymbol rw (rewriteSymbol rw si mi) mi = true →
     shouldImportSymbol rw (rewriteSymbol rw sj mj) mj = true →
     mi ≠ mj →
     ∃ ai aj, moduleImport ri = Some ai ∧ moduleImport rj = Some aj ∧ ai ≠ aj)
  ∧ (rw = NoopImportRewriter →
     ∃ k, importedModules rw calls !! k = Some mi
          ∧ moduleImport ri = Some (p +:+ pretty k))
  ∧ (mi ≠ mj → ∀ ai aj,
       moduleImport ri = Some ai → moduleImport rj = Some aj → ai ≠ aj)
  ∧ (∀ ai, moduleImport ri = Some ai →
       ∃ k, importedModules rw calls !! k = Some mi ∧ ai = p +:+ pretty k)
  ∧ NoDup (importedModules rw calls)
  ∧ nextIndex this' = length (importedModules rw calls).
Proof.
  intros Hrun Hci Hcj Hri Hrj.
  pose proof (generateNamedImports_fresh rw p calls) as Hfresh.
  rewrite Hrun in Hfresh. cbn zeta in Hfresh.
  destruct Hfresh as ((_ & Hnext & Hnd) & _ & _ & ->).
  rewrite list_lookup_fmap, Hci in Hri. rewrite list_lookup_fmap, Hcj in Hrj.
  injection Hri as <-. injection Hrj as <-.
  assert (∀ m s a,
            moduleImport (expectedImport rw p (importedModules rw calls) (m, s)) = Some a →
            ∃ k, importedModules rw calls !! k = Some m ∧ a = p +:+ pretty k) as Hform.
  { intros m s a. unfold expectedImport. simpl.
    destruct (shouldImportSymbol _ _ _); [|done].
    by apply aliasTable_get_Some. }
  assert (∀ n m s, calls !! n = Some (m, s) →
            shouldImportSymbol rw (rewriteSymbol rw s m) m = true →
            ∃ k, importedModules rw calls !! k = Some m
                 ∧ moduleImport (expectedImport rw p (importedModules rw calls) (m, s))
                   = Some (p +:+ pretty k)) as Hgets.
  { intros n m s Hn Hshould.
    assert (m ∈ importedModules rw calls) as [k Hk]%list_elem_of_lookup.
    { apply (firstSeen_imported rw [] calls m s); [|done].
      by apply list_elem_of_lookup_2 in Hn. }
    exists k. split; [done|]. unfold expectedImport. simpl. rewrite Hshould.
    by apply aliasTable_get_lookup. }
  assert (∀ ai aj, moduleImport (expectedImport rw p (importedModules rw calls) (mi, si))
                   = Some ai →
                   moduleImport (expectedImport rw p (importedModules rw calls) (mj, sj))
                   = Some aj →
                   mi ≠ mj → ai ≠ aj) as Hdiff.
  { intros ai aj (ki & Hki & ->)%Hform (kj & Hkj & ->)%Hform Hne Heq.
    apply alias_inj in Heq as ->. congruence. }
  split_and!; [by intros -> -> | by apply (Hgets i) | | | | by apply Hform | done | done].
  - intros Hi Hj Hne.
    destruct (Hgets i mi si Hci Hi) as (ki & _ & Hai).
    destruct (Hgets j mj sj Hcj Hj) as (kj & _ & Haj).
    exists (p +:+ pretty ki), (p +:+ pretty kj). split_and!; [done|done|].
    by apply Hdiff.
  - intros ->. by apply (Hgets i).
  - intros Hne ai aj Hai Haj. by apply Hdiff.
Qed.

Example generateNamedImports_rxjs :
  generateNamedImports rxjsCalls defaultImportManager
  = ([ {| moduleImport := Some "i0"; symbol := "Observable" |};
       {| moduleImport := Some "i1"; symbol := "Observable" |};
       {| moduleImport := Some "i0"; symbol := "Observable" |} ],
     {| rewriter := NoopImportRewriter; prefix := "i";
        specifierToIdentifier := [("rxjs", "i0"); ("@angular/core", "i1")];
        nextIndex := 2 |}).
Proof. vm_compute. reflexivity. Qed.

Lemma generateNamedImport_alias_determinism_witness :
  let r0 := {| moduleImport := Some "i0"; symbol := "Observable" |} in
  let r1 := {| moduleImport := Some "i1"; symbol := "Observable" |} in
  let this' := {| rewriter := NoopImportRewriter; prefix := "i";
                  specifierToIdentifier := [("rxjs", "i0"); ("@angular/core", "i1")];
                  nextIndex := 2 |} in
  generateNamedImports rxjsCalls (newImportManager NoopImportRewriter "i")
    = ([r0; r1; r0], this')
  ∧ (∃ k, importedModules NoopImportRewriter rxjsCalls !! k = Some "rxjs"
          ∧ moduleImport r0 = Some ("i" +:+ pretty k))
  ∧ (∃ ai aj, moduleImport r0 = Some ai ∧ moduleImport r1 = Some aj ∧ ai ≠ aj)
  ∧ ("rxjs" = "@angular/core" → "Observable" = "Observable" →
     moduleImport r0 = moduleImport r1)
  ∧ (∀ ai aj, moduleImport r0 = Some ai → moduleImport r1 = Some aj → ai ≠ aj)
  ∧ (∀ ai, moduleImport r0 = Some ai →
       ∃ k, importedModules NoopImportRewriter rxjsCalls !! k = Some "rxjs"
            ∧ ai = "i" +:+ pretty k)
  ∧ NoDup (importedModules NoopImportRewriter rxjsCalls)
  ∧ nextIndex this' = length (importedModules NoopImportRewriter rxjsCalls).
Proof.
  intros r0 r1 this'.
  assert (generateNamedImports rxjsCalls (newImportManager NoopImportRewriter "i")
          = ([r0; r1; r0], this')) as Hrun by (vm_compute; reflexivity).
  assert ("rxjs" ≠ "@angular/core") as Hne by discriminate.
  destruct (generateNamedImport_alias_determinism NoopImportRewriter "i" rxjsCalls
              [r0; r1; r0] this' 0 1 "rxjs" "Observable" "@angular/core" "Observable"
              r0 r1 Hrun eq_refl eq_refl eq_refl eq_refl)
    as (Hsame & Halias & Hboth & _ & Hdiff & Hform & Hnd & Hnext).
  split_and!;
    [ exact Hrun | exact (Halias eq_refl) | exact (Hboth eq_refl eq_refl Hne)
    | exact Hsame | exact (Hdiff Hne) | exact Hform | exact Hnd | exact Hnext ].
Defined.

(** C6.  After any sequence of calls on a fresh manager, [getAllImports]
    lists the imported modules, each once, in the order of their first
    import, the [k]-th with the alias numbered [k] and with its specifier
    rewritten by the policy for the context path; calls that reference
    again modules already imported leave the list as it is. *)
Theorem getAllImports_first_seen_order
    (rw : ImportRewriter) (p : string) (calls : list (string * string))
    (contextPath : string) :
  getAllImports contextPath (generateNamedImports calls (newImportManager rw p)).2
  = imap (λ k m, {| specifier := rewriteSpecifier rw m contextPath;
                    qualifier := p +:+ pretty k |}) (importedModules rw calls)
  ∧ NoDup (importedModules rw calls)
  ∧ ∀ again : list (string * string),
      (∀ call, call ∈ again →
         shouldImportSymbol rw (rewriteSymbol rw call.2 call.1) call.1 = true →
         call.1 ∈ importedModules rw calls) →
      getAllImports contextPath
        (generateNamedImports (calls ++ again) (newImportManager rw p)).2
      = getAllImports contextPath
          (generateNamedImports calls (newImportManager rw p)).2.
Proof.
  assert (∀ cs, getAllImports contextPath
                  (generateNamedImports cs (newImportManager rw p)).2
                = expectedImports rw p contextPath (importedModules rw cs)) as Hall.
  { intros cs. pose proof (generateNamedImports_fresh rw p cs) as Hfresh.
    destruct (generateNamedImports cs _) as [results this']. cbn zeta in Hfresh.
    destruct Hfresh as (Htr & Hrw & Hp & _). simpl.
    rewrite (getAllImports_tracks this' _ contextPath Htr). by rewrite Hrw, Hp. }
  split_and!.
  - apply Hall.
  - apply firstSeen_NoDup, NoDup_nil_2.
  - intros again Hagain. rewrite !Hall. f_equal.
    unfold importedModules. rewrite firstSeen_app. by apply firstSeen_known.
Qed.

Lemma getAllImports_first_seen_order_witness :
  (∀ call, call ∈ [("rxjs", "Subject"); ("rxjs", "Observable")] →
     shouldImportSymbol NoopImportRewriter
       (rewriteSymbol NoopImportRewriter call.2 call.1) call.1 = true →
     call.1 ∈ importedModules NoopImportRewriter rxjsCalls)
  ∧ getAllImports "/app/main.ts"
      (generateNamedImports (rxjsCalls ++ [("rxjs", "Subject"); ("rxjs", "Observable")])
         (newImportManager NoopImportRewriter "i")).2
    = getAllImports "/app/main.ts"
        (generateNamedImports rxjsCalls (newImportManager NoopImportRewriter "i")).2.
Proof.
  assert (∀ call, call ∈ [("rxjs", "Subject"); ("rxjs", "Observable")] →
            shouldImportSymbol NoopImportRewriter
              (rewriteSymbol NoopImportRewriter call.2 call.1) call.1 = true →
            call.1 ∈ importedModules NoopImportRewriter rxjsCalls) as Hagain.
  { intros call Hcall _.
    apply elem_of_cons in Hcall as [-> | Hcall]; [left|].
    apply elem_of_cons in Hcall as [-> | Hcall]; [left|].
    by apply elem_of_nil in Hcall. }
  split; [exact Hagain|].
  exact (proj2 (proj2 (getAllImports_first_seen_order NoopImportRewriter "i"
                         rxjsCalls "/app/main.ts")) _ Hagain).
Defined.

Example getAllImports_rxjs :
  getAllImports "/app/main.ts"
    (generateNamedImports (rxjsCalls ++ [("rxjs", "Subject")]) defaultImportManager).2
  = [ {| specifier := "rxjs"; qualifier := "i0" |};
      {| specifier := "@angular/core"; qualifier := "i1" |} ].
Proof. vm_compute. reflexivity. Qed.

(** C9.  A call for which the policy's [shouldImportSymbol] is false
    returns no alias and leaves the manager as it was, map and counter
    included, so [getAllImports] after any later calls is what it would
    have been without that call. *)
Theorem generateNamedImport_not_imported_frame
    (this : ImportManager) (moduleName originalSymbol : string) :
  shouldImportSymbol (rewriter this)
    (rewriteSymbol (rewriter this) originalSymbol moduleName) moduleName = false →
  generateNamedImport moduleName originalSymbol this
  = ({| moduleImport := None;
        symbol := rewriteSymbol (rewriter this) originalSymbol moduleName |}, this)
  ∧ specifierToIdentifier (generateNamedImport moduleName originalSymbol this).2
    = specifierToIdentifier this
  ∧ nextIndex (generateNamedImport moduleName originalSymbol this).2 = nextIndex this
  ∧ ∀ (later : list (string * string)) (contextPath : string),
      getAllImports contextPath
        (generateNamedImports ((moduleName, originalSymbol) :: later) this).2
      = getAllImports contextPath (generateNamedImports later this).2.
Proof.
  intros Hshould.
  assert (generateNamedImport moduleName originalSymbol this
          = ({| moduleImport := None;
                symbol := rewriteSymbol (rewriter this) originalSymbol moduleName |},
             this)) as Hcall.
  { unfold generateNamedImport. by rewrite Hshould. }
  split_and!; [done | by rewrite Hcall | by rewrite Hcall |].
  intros later contextPath. simpl. rewrite Hcall.
  by destruct (generateNamedImports later this).
Qed.

Lemma generateNamedImport_not_imported_frame_witness :
  let this := (generateNamedImports [("rxjs", "Observable")]
                 (newImportManager coreImportRewriter "i")).2 in
  shouldImportSymbol (rewriter this)
    (rewriteSymbol (rewriter this) "Component" "@angular/core") "@angular/core" = false
  ∧ generateNamedImport "@angular/core" "Component" this
    = ({| moduleImport := None; symbol := "Component" |}, this)
  ∧ getAllImports "/app/main.ts"
      (generateNamedImports [("@angular/core", "Component"); ("@angular/forms", "NgForm")]
         this).2
    = getAllImports "/app/main.ts"
        (generateNamedImports [("@angular/forms", "NgForm")] this).2.
Proof.
  intros this.
  assert (shouldImportSymbol (rewriter this)
            (rewriteSymbol (rewriter this) "Component" "@angular/core")
            "@angular/core" = false) as Hshould by reflexivity.
  pose proof (generateNamedImport_not_imported_frame this "@angular/core" "Component"
                Hshould) as (Hcall & _ & _ & Hlater).
  split_and!; [exact Hshould | exact Hcall | apply Hlater].
Defined.

(** ** The visitor's monad *)

Section MonadFacts.
Context {A B : Type}.

Lemma bind_Normal_inv (m : M A) (k : A → M B) s b s' :
  bind m k s = (Normal b, s') →
  ∃ a s1, m s = (Normal a, s1) ∧ k a s1 = (Normal b, s').
Proof.
  unfold bind. destruct (m s) as [[a|e] s1]; [|done]. intros Hk. by exists a, s1.
Qed.

End MonadFacts.

Lemma mapM_length {A B} (f : A → M B) l s bs s' :
  mapM f l s = (Normal bs, s') → length bs = length l.
Proof.
  revert s bs s'. induction l as [|x l IH]; intros s bs s'; simpl.
  - unfold ret. by intros [= <- _].
  - intros (y & s1 & _ & Hrest)%bind_Normal_inv.
    apply bind_Normal_inv in Hrest as (ys & s2 & Hys & Hret).
    unfold ret in Hret. injection Hret as <- _. simpl. f_equal. by eapply IH.
Qed.

Lemma mapM_fmap {A B C} (g : A → B) (f : B → M C) (l : list A) s :
  mapM f (map g l) s = mapM (λ x, f (g x)) l s.
Proof.
  revert s. induction l as [|x l IH]; intros s; simpl; [done|].
  unfold bind. destruct (f (g x) s) as [[y|e] s1]; [|done]. by rewrite IH.
Qed.

(** ** The localized-string helper *)

Section LocalizedStringFacts.
Context {E : Type}.
Variable ast : LocalizedStringOf E.
Variable context : Context.
Variable visitor : E → Context → M ts.Node.

(** The [for] loop, from index [i] with the spans [acc] built so far,
    is the in-order translation of the next [turns] expressions, each
    paired with a middle. *)
Lemma localizedSpans_mapM turns : ∀ i acc rest s,
  drop i (expressions ast) = rest → turns ≤ length rest →
  localizedSpans ast context visitor turns (S i) acc s
  = (resolved <- mapM (λ e, visitor e context) (take turns rest) ;;
     ret (acc ++ imap (λ k n,
                         ts.createTemplateSpan n
                           (templatePiece ts.TemplateMiddle
                              (serializeI18nTemplatePart ast (S (i + k)))))
                   resolved)) s.
Proof.
  induction turns as [|turns IH]; intros i acc rest s Hdrop Hlen.
  - simpl. unfold bind, ret. simpl. by rewrite app_nil_r.
  - destruct rest as [|e rest]; [simpl in Hlen; lia|].
    assert (expressions ast !! i = Some e) as Hi.
    { pose proof (lookup_drop (expressions ast) i 0) as Hl.
      rewrite Nat.add_0_r in Hl. by rewrite <- Hl, Hdrop. }
    assert (drop (S i) (expressions ast) = rest) as Hdrop'.
    { pose proof (drop_drop (expressions ast) 1 i) as Hd.
      rewrite Nat.add_1_r, Hdrop in Hd. by rewrite <- Hd. }
    cbn [localizedSpans take mapM]. unfold localizedSpan.
    replace (S i - 1) with i by lia. rewrite Hi.
    unfold bind, ret in *. destruct (visitor e context s) as [[n|err] s1]; [|done].
    rewrite (IH (S i) _ rest s1 Hdrop') by (simpl in Hlen; lia).
    destruct (mapM _ _ s1) as [[ns|err] s2]; [|done].
    simpl. rewrite <- app_assoc. simpl. rewrite Nat.add_0_r.
    do 3 f_equal. f_equal. apply imap_ext. intros k n' _. simpl.
    by replace (i + S k) with (S (i + k)) by lia.
Qed.

(** Re-tagging the last of [N] middles. *)
Lemma retag_last_middle (resolved : list ts.Node) :
  0 < length resolved →
  alter (ts.setSpanLiteralKind ts.TemplateTail) (length resolved - 1)
    (imap (λ k n,
             ts.createTemplateSpan n
               (templatePiece ts.TemplateMiddle
                  (serializeI18nTemplatePart ast (S k)))) resolved)
  = localizedTemplateSpans ast (length resolved) resolved.
Proof.
  intros Hpos. unfold localizedTemplateSpans.
  apply list_eq. intros k. rewrite list_lookup_alter, !list_lookup_imap.
  case_decide as Hk.
  - subst k. destruct (resolved !! _); simpl; [|done].
    by rewrite decide_True.
  - destruct (resolved !! k); simpl; [|done].
    by rewrite decide_False by done.
Qed.
End LocalizedStringFacts.

Section LocalizedStringResults.
Context {E : Type}.
Variable ast : LocalizedStringOf E.
Variable context : Context.
Variable visitor : E → Context → M ts.Node.

Lemma visitLocalizedString_single s :
  length (messageParts ast) = 1 →
  visitLocalizedString ast context visitor s
  = (Normal (ts.createTaggedTemplate (ts.createIdentifier "$localize")
               (templatePiece ts.NoSubstitutionTemplateLiteral
                  (serializeI18nHead ast))), s).
Proof. intros Hone. unfold visitLocalizedString. by rewrite decide_True. Qed.

Lemma visitLocalizedString_substitutions N s :
  1 ≤ N → length (messageParts ast) = S N → length (expressions ast) = N →
  visitLocalizedString ast context visitor s
  = (resolved <- mapM (λ e, visitor e context) (expressions ast) ;;
     ret (ts.createTaggedTemplate (ts.createIdentifier "$localize")
            (ts.createTemplateExpression
               (templatePiece ts.TemplateHead (serializeI18nHead ast))
               (localizedTemplateSpans ast N resolved)))) s.
Proof.
  intros HN Hparts Hexprs.
  unfold visitLocalizedString. rewrite decide_False by lia.
  rewrite Hparts. replace (S N - 1) with N by lia.
  unfold bind at 1 2.
  rewrite (localizedSpans_mapM ast context visitor N 0 [] (expressions ast) s)
    by first [done | lia].
  rewrite take_ge by lia.
  unfold bind. destruct (mapM _ _ s) as [[resolved|err] s'] eqn:Hmap; [|done].
  apply mapM_length in Hmap. unfold ret. simpl.
  rewrite length_imap, decide_True by lia.
  rewrite retag_last_middle by lia. by rewrite Hmap, Hexprs.
Qed.
End LocalizedStringResults.

(** C5.  The helper on a localized string.  With a single message part
    it builds a no-substitution template.  With [N + 1] message parts and
    [N >= 1] embedded expressions it translates the expressions in order
    and builds a template expression with one head and [N] spans, the
    [k]-th span pairing the [k]-th translation with message part [k + 1],
    its literal a tail for the last span and a middle for the others.
    Either template is the operand of a tagged template whose tag is the
    identifier [$localize]. *)
Theorem visitLocalizedString_template {E : Type}
    (ast : LocalizedStringOf E) (context : Context)
    (visitor : E → Context → M ts.Node) (s : VisitorState) :
  (length (messageParts ast) = 1 →
   visitLocalizedString ast context visitor s
   = (Normal (ts.createTaggedTemplate (ts.createIdentifier "$localize")
                (templatePiece ts.NoSubstitutionTemplateLiteral
                   (serializeI18nHead ast))), s))
  ∧ (∀ N, 1 ≤ N → length (messageParts ast) = S N → length (expressions ast) = N →
     visitLocalizedString ast context visitor s
     = (resolved <- mapM (λ e, visitor e context) (expressions ast) ;;
        ret (ts.createTaggedTemplate (ts.createIdentifier "$localize")
               (ts.createTemplateExpression
                  (templatePiece ts.TemplateHead (serializeI18nHead ast))
                  (localizedTemplateSpans ast N resolved)))) s
     ∧ ∀ resolved s',
         mapM (λ e, visitor e context) (expressions ast) s = (Normal resolved, s') →
         length (localizedTemplateSpans ast N resolved) = N
         ∧ ∀ k n, resolved !! k = Some n →
             localizedTemplateSpans ast N resolved !! k
             = Some (ts.createTemplateSpan n
                       (templatePiece
                          (if decide (k = N - 1) then ts.TemplateTail
                           else ts.TemplateMiddle)
                          (serializeI18nTemplatePart ast (S k))))).
Proof.
  split; [apply visitLocalizedString_single|].
  intros N HN Hparts Hexprs. split; [by apply visitLocalizedString_substitutions|].
  intros resolved s' Hmap. unfold localizedTemplateSpans. split.
  - rewrite length_imap. apply mapM_length in Hmap. lia.
  - intros k n Hk. by rewrite list_lookup_imap, Hk.
Qed.

Lemma visitLocalizedString_template_witness :
  let ast : LocalizedStringOf string :=
    {| messageParts := ["a"; "b"; "c"]; expressions := ["x"; "y"];
       serializeI18nHead := {| cooked := "a"; raw := "a" |};
       serializeI18nTemplatePart := λ i,
         {| cooked := default EmptyString (["a"; "b"; "c"] !! i);
            raw := default EmptyString (["a"; "b"; "c"] !! i) |} |} in
  let visitor := λ (e : string) (_ : Context), ret (ts.createIdentifier e) in
  let s := newVisitor defaultImportManager in
  1 ≤ 2 ∧ length (messageParts ast) = 3 ∧ length (expressions ast) = 2
  ∧ visitLocalizedString ast (mkContext false) visitor s
    = (Normal
         (ts.createTaggedTemplate (ts.createIdentifier "$localize")
            (ts.createTemplateExpression
               (templatePiece ts.TemplateHead {| cooked := "a"; raw := "a" |})
               [ ts.createTemplateSpan (ts.createIdentifier "x")
                   (templatePiece ts.TemplateMiddle {| cooked := "b"; raw := "b" |});
                 ts.createTemplateSpan (ts.createIdentifier "y")
                   (templatePiece ts.TemplateTail {| cooked := "c"; raw := "c" |}) ])),
       s).
Proof.
  intros ast visitor s.
  split_and!; [lia | reflexivity | reflexivity |].
  rewrite (proj1 (proj2 (visitLocalizedString_template ast (mkContext false) visitor s)
                    2 (le_S 1 1 (le_n 1)) eq_refl eq_refl)).
  reflexivity.
Defined.

(** The expression visitor on a localized string: the helper, from
    ES2015 on; an error below. *)
Lemma visitExpression_LocalizedString scriptTarget ast span context s N :
  (ts.ScriptTarget_value ts.ES2015 ≤ ts.ScriptTarget_value scriptTarget) →
  1 ≤ N → length (messageParts ast) = S N → length (expressions ast) = N →
  visitExpression scriptTarget (LocalizedString ast span) context s
  = (resolved <- mapM (λ e, visitExpression scriptTarget e context) (expressions ast) ;;
     ret (ts.createTaggedTemplate (ts.createIdentifier "$localize")
            (ts.createTemplateExpression
               (templatePiece ts.TemplateHead (serializeI18nHead ast))
               (localizedTemplateSpans ast N resolved)))) s.
Proof.
  intros Htarget HN Hparts Hexprs. simpl. unfold visitLocalizedStringExpr.
  rewrite bool_decide_eq_false_2 by lia.
  rewrite (visitLocalizedString_substitutions _ _ _ N) by (simpl; by rewrite ?length_map).
  simpl. unfold bind. by rewrite mapM_fmap.
Qed.

Example visitExpression_LocalizedString_abc :
  (translateExpression
     (LocalizedString
        {| messageParts := ["a"; "b"; "c"];
           expressions := [ReadVarExpr "x" None; ReadVarExpr "y" None];
           serializeI18nHead := {| cooked := "a"; raw := "a" |};
           serializeI18nTemplatePart := λ i,
             {| cooked := default EmptyString (["a"; "b"; "c"] !! i);
                raw := default EmptyString (["a"; "b"; "c"] !! i) |} |} None)
     defaultImportManager ts.ES2015).1
  = Normal
      (ts.createTaggedTemplate (ts.createIdentifier "$localize")
         (ts.createTemplateExpression
            (templatePiece ts.TemplateHead {| cooked := "a"; raw := "a" |})
            [ ts.createTemplateSpan (ts.createIdentifier "x")
                (templatePiece ts.TemplateMiddle {| cooked := "b"; raw := "b" |});
              ts.createTemplateSpan (ts.createIdentifier "y")
                (templatePiece ts.TemplateTail {| cooked := "c"; raw := "c" |}) ])).
Proof. vm_compute. reflexivity. Qed.

(** ** Assignment forms *)

Section AssignmentForms.
Variable scriptTarget : ts.ScriptTarget.
Abbreviation visit := (visitExpression scriptTarget).

Lemma visitWriteVarExpr_result name value span context s n s' :
  visit (WriteVarExpr name value span) context s = (Normal n, s') →
  ∃ v, visit value context s = (Normal v, s')
       ∧ n = inContext context
               (ts.createBinary (ts.createIdentifier name) ts.EqualsToken v).
Proof.
  simpl. unfold visitWriteVarExpr.
  intros (v & s1 & Hv & Hret)%bind_Normal_inv. injection Hret as <- <-.
  by exists v.
Qed.

(** Write-indexed: the three operands are translated in expression
    mode whatever the incoming context, which only decides the
    parentheses. *)
Lemma visitWriteKeyExpr_operands receiver index value span context s :
  visit (WriteKeyExpr receiver index value span) context s
  = (r <- visit receiver (mkContext false) ;;
     i <- visit index (mkContext false) ;;
     v <- visit value (mkContext false) ;;
     ret (inContext context
            (ts.createBinary (ts.createElementAccess r i) ts.EqualsToken v))) s.
Proof.
  simpl. unfold visitWriteKeyExpr.
  by replace (withExpressionMode context) with (mkContext false)
    by by destruct context as [[]].
Qed.

(** Write-property: the operands are translated in the incoming
    context and the assignment is returned as it is. *)
Lemma visitWritePropExpr_operands receiver name value span context s :
  visit (WritePropExpr receiver name value span) context s
  = (r <- visit receiver context ;;
     v <- visit value context ;;
     ret (ts.createBinary (ts.createPropertyAccess r (inl name))
            ts.EqualsToken v)) s.
Proof. reflexivity. Qed.

Lemma visitWritePropExpr_never_parenthesized receiver name value span context s n s' :
  visit (WritePropExpr receiver name value span) context s = (Normal n, s') →
  ts.isParenthesizedExpression n = false.
Proof.
  rewrite visitWritePropExpr_operands.
  intros (r & s1 & _ & Hrest)%bind_Normal_inv.
  apply bind_Normal_inv in Hrest as (v & s2 & _ & Hret).
  by injection Hret as <- _.
Qed.
End AssignmentForms.

(** C1.  The write-property form in expression mode: [a.b = 1] as the
    single element of a literal array is translated to the bare
    assignment, where [x = 1] and [a[k] = 1] in the same place are
    parenthesized; as statements all three are bare. *)
Theorem visitWritePropExpr_expression_mode_bare :
  (translateExpression (LiteralArrayExpr [assignAB] None) defaultImportManager ts.ES2015).1
  = Normal (ts.createArrayLiteral [ts.createBinary tsAB ts.EqualsToken tsOne])
  ∧ (translateExpression (LiteralArrayExpr [assignX] None) defaultImportManager ts.ES2015).1
    = Normal (ts.createArrayLiteral [ts.createParen tsAssignX])
  ∧ (translateExpression (LiteralArrayExpr [assignAK] None) defaultImportManager ts.ES2015).1
    = Normal (ts.createArrayLiteral
                [ts.createParen (ts.createBinary tsAK ts.EqualsToken tsOne)])
  ∧ (translateStatement (ExpressionStatement assignAB) defaultImportManager ts.ES2015).1
    = Normal (ts.createStatement (ts.createBinary tsAB ts.EqualsToken tsOne))
  ∧ (translateStatement (ExpressionStatement assignX) defaultImportManager ts.ES2015).1
    = Normal (ts.createStatement tsAssignX)
  ∧ (translateStatement (ExpressionStatement assignAK) defaultImportManager ts.ES2015).1
    = Normal (ts.createStatement (ts.createBinary tsAK ts.EqualsToken tsOne)).
Proof. split_and!; vm_compute; reflexivity. Qed.

(** C2.  The write-property form in statement mode: the value operand of
    [a.b = (x = 1)] is translated in statement mode, so the inner
    assignment comes out bare, where the write-indexed form
    [a[k] = (x = 1)] translates it in expression mode and parenthesizes
    it. *)
Theorem visitWritePropExpr_operands_in_incoming_context :
  (translateStatement (ExpressionStatement assignABX) defaultImportManager ts.ES2015).1
  = Normal (ts.createStatement (ts.createBinary tsAB ts.EqualsToken tsAssignX))
  ∧ (translateStatement (ExpressionStatement assignAKX) defaultImportManager ts.ES2015).1
    = Normal (ts.createStatement
                (ts.createBinary tsAK ts.EqualsToken (ts.createParen tsAssignX)))
  ∧ ∀ scriptTarget receiver name value span context s,
      visitExpression scriptTarget (WritePropExpr receiver name value span) context s
      = (r <- visitExpression scriptTarget receiver context ;;
         v <- visitExpression scriptTarget value context ;;
         ret (ts.createBinary (ts.createPropertyAccess r (inl name))
                ts.EqualsToken v)) s.
Proof. split_and!; [vm_compute; reflexivity | vm_compute; reflexivity | reflexivity]. Qed.

(** ** External references *)

Lemma generateNamedImport_null_alias this moduleName originalSymbol :
  moduleImport (generateNamedImport moduleName originalSymbol this).1 = None →
  (generateNamedImport moduleName originalSymbol this).2 = this.
Proof.
  unfold generateNamedImport.
  destruct (shouldImportSymbol _ _ _); simpl; [|done].
  destruct (JsMap.has _ _) eqn:Hhas; simpl; [done|].
  by rewrite JsMap_get_set_eq.
Qed.

(** C4.  An external reference with a null symbol name raises an error
    and changes nothing; with a null module name it is the bare
    identifier of the symbol and the visitor's state, import manager
    included, is as before; otherwise the import manager resolves it, and
    the result is the bare identifier of the resolved symbol for a null
    alias (the manager then being unchanged) and the property access
    [alias.symbol] for an alias. *)
Theorem visitExternalExpr_cases
    (scriptTarget : ts.ScriptTarget) (span : option ParseSourceSpan)
    (context : Context) (s : VisitorState) :
  (∀ m, visitExpression scriptTarget
          (ExternalExpr {| moduleName := m; name := None |} span) context s
        = (Thrown (Error "Import unknown module or symbol [object Object]"), s))
  ∧ (∀ n, visitExpression scriptTarget
            (ExternalExpr {| moduleName := None; name := Some n |} span) context s
          = (Normal (ts.createIdentifier n), s))
  ∧ (∀ m n,
       let resolved := generateNamedImport m n (imports s) in
       visitExpression scriptTarget
         (ExternalExpr {| moduleName := Some m; name := Some n |} span) context s
       = match moduleImport resolved.1 with
         | None => (Normal (ts.createIdentifier (symbol resolved.1)), s)
         | Some alias =>
             (Normal (ts.createPropertyAccess (ts.createIdentifier alias)
                        (inr (ts.createIdentifier (symbol resolved.1)))),
              withImports s resolved.2)
         end).
Proof.
  split_and!; [done | done |].
  intros m n. cbn zeta. simpl. unfold visitExternalExpr, bind, onImports. simpl.
  pose proof (generateNamedImport_null_alias (imports s) m n) as Hnull.
  destruct (generateNamedImport m n (imports s)) as [r imports']. simpl in *.
  destruct (moduleImport r); [done|].
  rewrite Hnull by done. by destruct s.
Qed.

Example visitExternalExpr_Array :
  translateExpression (ExternalExpr {| moduleName := None; name := Some "Array" |} None)
    defaultImportManager ts.ES2015
  = (Normal (ts.createIdentifier "Array"), newVisitor defaultImportManager).
Proof. reflexivity. Qed.

Example visitExternalExpr_rxjs :
  (translateExpression
     (ExternalExpr {| moduleName := Some "rxjs"; name := Some "Observable" |} None)
     defaultImportManager ts.ES2015).1
  = Normal (ts.createPropertyAccess (ts.createIdentifier "i0")
              (inr (ts.createIdentifier "Observable"))).
Proof. vm_compute. reflexivity. Qed.

Example visitExternalExpr_core :
  translateExpression
    (ExternalExpr {| moduleName := Some "@angular/core"; name := Some "Component" |} None)
    (newImportManager coreImportRewriter "i") ts.ES2015
  = (Normal (ts.createIdentifier "Component"),
     newVisitor (newImportManager coreImportRewriter "i")).
Proof. vm_compute. reflexivity. Qed.

(** ** Binary operators *)

Lemma BINARY_OPERATORS_has op :
  JsMap.has BINARY_OPERATORS op = false ↔ ∃ name, op = OtherBinaryOperator name.
Proof.
  split.
  - destruct op; try discriminate. by eexists.
  - by intros [name ->].
Qed.

(** C7.  A binary-operator node whose operator the table does not hold
    raises the error naming the operator, produces no node and leaves
    the state as it is; one whose operator the table maps to [token]
    translates the two operands in order and produces the binary
    expression with [token]. *)
Theorem visitBinaryOperatorExpr_table
    (scriptTarget : ts.ScriptTarget) (operator : BinaryOperator)
    (lhs rhs : Expression) (span : option ParseSourceSpan)
    (context : Context) (s : VisitorState) :
  (JsMap.has BINARY_OPERATORS operator = false →
   visitExpression scriptTarget (BinaryOperatorExpr operator lhs rhs span) context s
   = (Thrown (Error ("Unknown binary operator: " +:+ BinaryOperator_name operator)), s))
  ∧ (∀ token, JsMap.get BINARY_OPERATORS operator = Some token →
     visitExpression scriptTarget (BinaryOperatorExpr operator lhs rhs span) context s
     = (l <- visitExpression scriptTarget lhs context ;;
        r <- visitExpression scriptTarget rhs context ;;
        ret (ts.createBinary l token r)) s).
Proof.
  split.
  - intros Hhas. simpl. unfold visitBinaryOperatorExpr.
    unfold JsMap.has in Hhas. by destruct (JsMap.get BINARY_OPERATORS operator).
  - intros token Hget. simpl. unfold visitBinaryOperatorExpr. by rewrite Hget.
Qed.

Lemma visitBinaryOperatorExpr_table_witness :
  JsMap.has BINARY_OPERATORS (OtherBinaryOperator "Exponent") = false
  ∧ JsMap.get BINARY_OPERATORS Plus = Some ts.PlusToken
  ∧ (translateExpression
       (BinaryOperatorExpr (OtherBinaryOperator "Exponent") literal1 literal1 None)
       defaultImportManager ts.ES2015)
    = (Thrown (Error "Unknown binary operator: Exponent"),
       newVisitor defaultImportManager)
  ∧ (translateExpression (BinaryOperatorExpr Plus literal1 literal1 None)
       defaultImportManager ts.ES2015)
    = (Normal (ts.createBinary tsOne ts.PlusToken tsOne),
       newVisitor defaultImportManager).
Proof.
  split_and!; [reflexivity | reflexivity | | ].
  - exact (proj1 (visitBinaryOperatorExpr_table ts.ES2015 (OtherBinaryOperator "Exponent")
                    literal1 literal1 None (mkContext false)
                    (newVisitor defaultImportManager)) eq_refl).
  - unfold translateExpression.
    rewrite (proj2 (visitBinaryOperatorExpr_table ts.ES2015 Plus
                      literal1 literal1 None (mkContext false)
                      (newVisitor defaultImportManager)) ts.PlusToken eq_refl).
    reflexivity.
Defined.

(** The table maps every operator it names, to these tokens. *)
Example BINARY_OPERATORS_tokens :
  map (JsMap.get BINARY_OPERATORS)
    [And; Bigger; BiggerEquals; BitwiseAnd; Divide; Equals; Identical; Lower;
     LowerEquals; Minus; Modulo; Multiply; NotEquals; NotIdentical; Or; Plus]
  = map Some
      [ts.AmpersandAmpersandToken; ts.GreaterThanToken; ts.GreaterThanEqualsToken;
       ts.AmpersandToken; ts.SlashToken; ts.EqualsEqualsToken;
       ts.EqualsEqualsEqualsToken; ts.LessThanToken; ts.LessThanEqualsToken;
       ts.MinusToken; ts.PercentToken; ts.AsteriskToken; ts.ExclamationEqualsToken;
       ts.ExclamationEqualsEqualsToken; ts.BarBarToken; ts.PlusToken].
Proof. reflexivity. Qed.

(** ** Conditional expressions *)

(** The claim of C10 as stated fails: with a comma expression as
    condition and a null false case, the visit raises the "not
    implemented" error of the condition, not a null dereference. *)
Lemma visitConditionalExpr_null_falseCase_counterexample :
  (translateExpression conditionalCommaNoElse defaultImportManager ts.ES2015).1
  = Thrown (Error "Method not implemented.")
  ∧ ¬ throws (visitExpression ts.ES2015 conditionalCommaNoElse (mkContext false))
        (newVisitor defaultImportManager) (nullDereference "visitExpression").
Proof. split; [reflexivity | unfold throws; vm_compute; discriminate]. Qed.

(** C10, amended.  A conditional whose false case is null never
    produces a node.  Its condition and true case are translated first;
    when both complete, the visit raises the null-dereference error, the
    false case being dereferenced without a guard; when one of them
    raises, that error propagates. *)
Theorem visitConditionalExpr_null_falseCase
    (scriptTarget : ts.ScriptTarget) (condition trueCase : Expression)
    (span : option ParseSourceSpan) (context : Context) (s : VisitorState) :
  let visit := visitExpression scriptTarget in
  let ast := ConditionalExpr condition trueCase None span in
  (∀ n s', visit ast context s ≠ (Normal n, s'))
  ∧ (∀ c s1 t s2,
       visit condition context s = (Normal c, s1) →
       visit trueCase context s1 = (Normal t, s2) →
       visit ast context s = (Thrown (nullDereference "visitExpression"), s2))
  ∧ (∀ e s1,
       visit condition context s = (Thrown e, s1) →
       visit ast context s = (Thrown e, s1))
  ∧ (∀ c s1 e s2,
       visit condition context s = (Normal c, s1) →
       visit trueCase context s1 = (Thrown e, s2) →
       visit ast context s = (Thrown e, s2)).
Proof.
  intros visit ast. subst visit ast. simpl. unfold visitConditionalExpr, bind, throw.
  split_and!.
  - intros n s'. destruct (visitExpression _ condition _ _) as [[c|e] s1]; [|done].
    by destruct (visitExpression _ trueCase _ _) as [[t|e] s2].
  - by intros c s1 t s2 -> ->.
  - by intros e s1 ->.
  - by intros c s1 e s2 -> ->.
Qed.

Lemma visitConditionalExpr_null_falseCase_witness :
  let s := newVisitor defaultImportManager in
  visitExpression ts.ES2015 (ReadVarExpr "c" None) (mkContext false) s
  = (Normal (ts.createIdentifier "c"), s)
  ∧ visitExpression ts.ES2015 (ReadVarExpr "t" None) (mkContext false) s
    = (Normal (ts.createIdentifier "t"), s)
  ∧ visitExpression ts.ES2015 conditionalNoElse (mkContext false) s
    = (Thrown (nullDereference "visitExpression"), s)
  ∧ visitExpression ts.ES2015 (CommaExpr [] None) (mkContext false) s
    = (Thrown (Error "Method not implemented."), s)
  ∧ visitExpression ts.ES2015 conditionalCommaNoElse (mkContext false) s
    = (Thrown (Error "Method not implemented."), s).
Proof.
  intros s.
  pose proof (visitConditionalExpr_null_falseCase ts.ES2015 (ReadVarExpr "c" None)
                (ReadVarExpr "t" None) None (mkContext false) s) as (_ & Hboth & _).
  pose proof (visitConditionalExpr_null_falseCase ts.ES2015 (CommaExpr [] None)
                (ReadVarExpr "t" None) None (mkContext false) s) as (_ & _ & Hcond & _).
  split_and!; [reflexivity | reflexivity | | reflexivity | ].
  - exact (Hboth _ s _ s eq_refl eq_refl).
  - exact (Hcond _ s eq_refl).
Defined.

(** ** Source-map annotation *)

Section KeepsSources.
Lemma keepsSources_ret {A} (a : A) : keepsSources (ret a).
Proof. by intros s. Qed.

Lemma keepsSources_throw {A} e : keepsSources (@throw A e).
Proof. by intros s. Qed.

Lemma keepsSources_bind {A B} (m : M A) (k : A → M B) :
  keepsSources m → (∀ a, keepsSources (k a)) → keepsSources (bind m k).
Proof.
  intros Hm Hk s. unfold bind. specialize (Hm s).
  destruct (m s) as [[a|e] s1]; simpl in *; [|done].
  etrans; [exact Hm | apply Hk].
Qed.

Lemma keepsSources_mapM {A B} (f : A → M B) (l : list A) :
  list_all A (λ x, keepsSources (f x)) l → keepsSources (mapM f l).
Proof.
  induction 1 as [|x Hx l _ IH]; simpl; [apply keepsSources_ret|].
  apply keepsSources_bind; [done|]. intros y.
  apply keepsSources_bind; [done|]. intros ys. apply keepsSources_ret.
Qed.

Lemma keepsSources_optM {A B} (f : A → M B) (o : option A) :
  option_all A (λ x, keepsSources (f x)) o → keepsSources (optM f o).
Proof.
  destruct 1 as [x Hx|]; simpl; [|apply keepsSources_ret].
  apply keepsSources_bind; [done|]. intros y. apply keepsSources_ret.
Qed.

Lemma list_all_weaken {A} (P Q : A → Prop) (l : list A) :
  (∀ x, P x → Q x) → list_all A P l → list_all A Q l.
Proof. intros HPQ. induction 1; constructor; auto. Qed.

Lemma keepsSources_onImports {A} (m : ImportManager → A * ImportManager) :
  keepsSources (onImports m).
Proof. intros s. unfold onImports. by destruct (m (imports s)). Qed.

Lemma keepsSources_recordUsedIdentifier node :
  keepsSources (recordUsedIdentifier node).
Proof. by intros s. Qed.

Lemma keepsSources_setSourceMapRange expr ast :
  keepsSources (setSourceMapRange expr ast).
Proof.
  intros s. unfold setSourceMapRange.
  destruct (sourceSpan ast) as [span|]; [|done].
  destruct (truthy _); [|done]. simpl.
  case_bool_decide as Hcached; simpl; [done|].
  apply insert_subseteq. by apply eq_None_not_Some.
Qed.

Lemma keepsSources_localizedSpans (ast : LocalizedStringOf (Context → M ts.Node))
    context turns : ∀ i acc,
  list_all _ (λ e, ∀ c, keepsSources (e c)) (expressions ast) →
  keepsSources (localizedSpans ast context (λ e c, e c) turns i acc).
Proof.
  induction turns as [|turns IH]; intros i acc Hall; simpl.
  - apply keepsSources_ret.
  - apply keepsSources_bind; [|intros; by apply IH].
    unfold localizedSpan. destruct (expressions ast !! (i - 1)) as [e|] eqn:He.
    + apply keepsSources_bind; [|intros; apply keepsSources_ret].
      clear IH. revert He. generalize (i - 1).
      induction Hall as [|e' He' l _ IHl]; intros [|j]; simpl; try done.
      * by intros [= ->].
      * apply IHl.
    + apply keepsSources_throw.
Qed.

Lemma keepsSources_visitLocalizedString (ast : LocalizedStringOf (Context → M ts.Node))
    context :
  list_all _ (λ e, ∀ c, keepsSources (e c)) (expressions ast) →
  keepsSources (visitLocalizedString ast context (λ e c, e c)).
Proof.
  intros Hall. unfold visitLocalizedString.
  apply keepsSources_bind; [|intros; apply keepsSources_ret].
  case_decide; [apply keepsSources_ret|].
  apply keepsSources_bind; [|intros; apply keepsSources_ret].
  by apply keepsSources_localizedSpans.
Qed.
End KeepsSources.

Lemma list_all_fmap {A B} (f : A → B) (P : B → Prop) (l : list A) :
  list_all A (λ x, P (f x)) l → list_all B P (map f l).
Proof. induction 1; simpl; constructor; auto. Qed.

Ltac keeps_step :=
  first
    [ apply keepsSources_ret
    | apply keepsSources_throw
    | apply keepsSources_setSourceMapRange
    | apply keepsSources_onImports
    | apply keepsSources_recordUsedIdentifier
    | match goal with
      | H : ∀ c, keepsSources (_ ?e c) |- keepsSources (_ ?e _) => apply H
      end
    | apply keepsSources_bind; [|intros]
    | apply keepsSources_mapM; eapply list_all_weaken; [|eassumption]; cbn beta; intros
    | match goal with
      | |- keepsSources (if ?b then _ else _) => destruct b
      | |- keepsSources (match ?o with _ => _ end) => destruct o
      end ].

Ltac keeps := repeat keeps_step.

(** No visit replaces or drops a cached source handle. *)
Lemma visit_keepsSources (scriptTarget : ts.ScriptTarget) :
  (∀ ast context, keepsSources (visitExpression scriptTarget ast context))
  ∧ (∀ stmt context, keepsSources (visitStatement scriptTarget stmt context)).
Proof.
  apply Expression_Statement_ind; intros; simpl.
  all: try (unfold visitReadVarExpr, visitWriteVarExpr, visitWriteKeyExpr,
              visitWritePropExpr, visitInvokeMethodExpr, visitInvokeFunctionExpr,
              visitInstantiateExpr, visitLiteralExpr, visitExternalExpr,
              visitNotExpr, visitAssertNotNullExpr, visitCastExpr, visitFunctionExpr,
              visitBinaryOperatorExpr, visitReadPropExpr, visitReadKeyExpr,
              visitLiteralArrayExpr, visitCommaExpr, visitWrappedNodeExpr,
              visitTypeofExpr, visitDeclareFunctionStmt, visitExpressionStmt,
              visitReturnStmt, visitDeclareClassStmt, visitIfStmt, visitTryCatchStmt,
              visitThrowStmt, visitCommentStmt, visitJSDocCommentStmt;
            solve [keeps]).
  - unfold visitLocalizedStringExpr. case_bool_decide; [apply keepsSources_throw|].
    apply keepsSources_visitLocalizedString.
    destruct H as [parts exprs Hall head part]. simpl.
    apply list_all_fmap. eapply list_all_weaken; [|exact Hall]. auto.
  - unfold visitConditionalExpr.
    destruct H1 as [falseCase HfalseCase|]; keeps.
  - unfold visitLiteralMapExpr. apply keepsSources_bind; [|intros; keeps].
    induction H as [|entry Hentry entries' _ IH]; simpl; [apply keepsSources_ret|].
    destruct Hentry as [key value Hvalue quoted]. simpl.
    apply keepsSources_bind; [keeps|]. intros property.
    apply keepsSources_bind; [exact IH|]. intros. apply keepsSources_ret.
  - unfold visitDeclareVarStmt. apply keepsSources_bind; [|intros; keeps].
    apply keepsSources_optM. destruct H as [value Hvalue|]; constructor. apply Hvalue.
Qed.

Lemma visitExpression_keepsSources scriptTarget ast context :
  keepsSources (visitExpression scriptTarget ast context).
Proof. apply visit_keepsSources. Qed.

Lemma keepsSources_run {A} (m : M A) s c s' :
  keepsSources m → m s = (c, s') → externalSourceFiles s ⊆ externalSourceFiles s'.
Proof. intros Hm Hrun. specialize (Hm s). by rewrite Hrun in Hm. Qed.

Lemma list_all_intro {A} (P : A → Prop) (l : list A) :
  (∀ x, P x) → list_all A P l.
Proof. intros HP. induction l; constructor; auto. Qed.

Lemma keepsSources_visit_args scriptTarget context (args : list Expression) :
  keepsSources (mapM (λ arg, visitExpression scriptTarget arg context) args).
Proof.
  apply keepsSources_mapM, list_all_intro. intros arg.
  apply visitExpression_keepsSources.
Qed.

Lemma keepsSources_visit_entries scriptTarget context
    (entries : list (LiteralMapEntryOf Expression)) :
  keepsSources
    (mapM (λ entry,
             let name :=
               if quoted entry then ts.createLiteral (ts.ofString (key entry))
               else ts.createIdentifier (key entry) in
             v <- visitExpression scriptTarget (value entry) context ;;
             ret (ts.createPropertyAssignment name v)) entries).
Proof.
  apply keepsSources_mapM, list_all_intro. intros entry. cbn zeta.
  apply keepsSources_bind; [apply visitExpression_keepsSources|]. intros. apply keepsSources_ret.
Qed.

(** [setSourceMapRange] on a node that carries no range yet. *)
Lemma setSourceMapRange_annotatedFrom expr ast s n s' :
  ts.sourceMapRange (ts.emitNode expr) = None →
  setSourceMapRange expr ast s = (Normal n, s') →
  annotatedFrom ast s s' n.
Proof.
  intros Hfresh. unfold setSourceMapRange, annotatedFrom.
  destruct (sourceSpan ast) as [span|]; [|by intros [= <- <-]].
  cbn zeta. destruct (truthy _); [|by intros [= <- <-]].
  intros [= <- <-]. case_bool_decide as Hcached; simpl.
  - destruct Hcached as [h Hh]. exists h. rewrite Hh.
    split_and!; [done | by destruct expr | congruence].
  - apply eq_None_not_Some in Hcached. eexists.
    rewrite lookup_insert_eq. split_and!; [done | by destruct expr | congruence].
Qed.

Lemma annotatedFrom_earlier ast s0 s s' n :
  externalSourceFiles s0 ⊆ externalSourceFiles s →
  annotatedFrom ast s s' n → annotatedFrom ast s0 s' n.
Proof.
  intros Hsub. unfold annotatedFrom.
  destruct (sourceSpan ast) as [span|]; [|done].
  cbn zeta. destruct (truthy _); [|done].
  intros (h & Hh & Hrange & Hsame). exists h. split_and!; [done|done|].
  intros h0 Hh0. apply Hsame. by eapply lookup_weaken.
Qed.


Ltac annotated_by_last :=
  match goal with
  | H : setSourceMapRange _ _ _ = (Normal _, _) |- _ =>
      eapply setSourceMapRange_annotatedFrom; [|exact H]
  end.

Ltac kept_by H lem := eapply keepsSources_run; [apply lem | exact H].

(** The node of an annotating visit. *)
Lemma visitExpression_annotatedFrom scriptTarget ast context s n s' :
  annotating ast = true →
  visitExpression scriptTarget ast context s = (Normal n, s') →
  annotatedFrom ast s s' n.
Proof.
  destruct ast; try discriminate; intros _; simpl.
  - unfold visitReadVarExpr. by apply setSourceMapRange_annotatedFrom.
  - unfold visitInvokeMethodExpr. intros Hvisit.
    apply bind_Normal_inv in Hvisit as (target & s1 & Htarget & Hvisit).
    apply bind_Normal_inv in Hvisit as (argv & s2 & Hargv & Hvisit).
    apply (annotatedFrom_earlier _ s s2); [|annotated_by_last; done].
    etrans; [kept_by Htarget visitExpression_keepsSources|].
    kept_by Hargv keepsSources_visit_args.
  - unfold visitInvokeFunctionExpr. intros Hvisit.
    apply bind_Normal_inv in Hvisit as (f & s1 & Hf & Hvisit).
    apply bind_Normal_inv in Hvisit as (argv & s2 & Hargv & Hvisit).
    apply (annotatedFrom_earlier _ s s2); [|annotated_by_last;
       match goal with |- context [if ?b then _ else _] => by destruct b end].
    etrans; [kept_by Hf visitExpression_keepsSources|].
    kept_by Hargv keepsSources_visit_args.
  - unfold visitLiteralExpr. apply setSourceMapRange_annotatedFrom.
    match goal with
    | |- context [match ?v with LUndefined => _ | _ => _ end] =>
        by destruct v as [| | | |[]]
    end.
  - unfold visitLiteralArrayExpr. intros Hvisit.
    apply bind_Normal_inv in Hvisit as (elements & s1 & Helements & Hvisit).
    apply (annotatedFrom_earlier _ s s1); [|annotated_by_last; done].
    kept_by Helements keepsSources_visit_args.
  - unfold visitLiteralMapExpr. intros Hvisit.
    apply bind_Normal_inv in Hvisit as (properties & s1 & Hproperties & Hvisit).
    apply (annotatedFrom_earlier _ s s1); [|annotated_by_last; done].
    kept_by Hproperties keepsSources_visit_entries.
Qed.





(** Nodes of successive visits whose spans are in the same file get the
    same source handle. *)
Corollary same_url_same_handle scriptTarget ast1 ast2 context1 context2
    s s1 s2 n1 n2 span1 span2 h1 h2 range1 range2 :
  annotating ast1 = true → annotating ast2 = true →
  sourceSpan ast1 = Some span1 → sourceSpan ast2 = Some span2 →
  url (file (start span1)) = url (file (start span2)) →
  visitExpression scriptTarget ast1 context1 s = (Normal n1, s1) →
  visitExpression scriptTarget ast2 context2 s1 = (Normal n2, s2) →
  ts.sourceMapRange (ts.emitNode n1) = Some range1 → ts.source range1 = Some h1 →
  ts.sourceMapRange (ts.emitNode n2) = Some range2 → ts.source range2 = Some h2 →
  h1 = h2.
Proof.
  intros Hast1 Hast2 Hspan1 Hspan2 Hurl Hvisit1 Hvisit2 Hrange1 Hh1 Hrange2 Hh2.
  pose proof (visitExpression_annotatedFrom _ _ _ _ _ _ Hast1 Hvisit1) as Hann1.
  pose proof (visitExpression_annotatedFrom _ _ _ _ _ _ Hast2 Hvisit2) as Hann2.
  unfold annotatedFrom in Hann1, Hann2. rewrite Hspan1 in Hann1. rewrite Hspan2 in Hann2.
  cbn zeta in *. rewrite <- Hurl in Hann2.
  destruct (truthy _); [|congruence].
  destruct Hann1 as (h1' & Hcached1 & Hr1 & _).
  destruct Hann2 as (h2' & _ & Hr2 & Hsame).
  specialize (Hsame h1' Hcached1).
  rewrite Hrange1 in Hr1. rewrite Hrange2 in Hr2.
  injection Hr1 as ->. injection Hr2 as ->. simpl in *. congruence.
Qed.

(** ** Which visits complete *)

Section Completes.
Lemma completes_ret {A} (a : A) : completes true (ret a).
Proof. intros s. by exists a, s. Qed.

Lemma completes_throw {A} e : completes false (@throw A e).
Proof. by intros s a s'. Qed.

Lemma completes_bind {A B} b1 b2 (m : M A) (k : A → M B) :
  completes b1 m → (∀ a, completes b2 (k a)) → completes (b1 && b2) (bind m k).
Proof.
  unfold completes, bind. destruct b1; simpl.
  - intros Hm Hk. destruct b2.
    + intros s. destruct (Hm s) as (a & s1 & ->). apply Hk.
    + intros s b s'. destruct (Hm s) as (a & s1 & ->). apply Hk.
  - intros Hm _ s b s'. specialize (Hm s).
    destruct (m s) as [[a|e] s1]; [|done]. by destruct (Hm a s1).
Qed.

Lemma completes_bind_never {A B} (m : M A) (k : A → M B) :
  completes false m → completes false (bind m k).
Proof.
  intros Hm s b s'. unfold bind. specialize (Hm s).
  destruct (m s) as [[a|e] s1]; [|done]. by destruct (Hm a s1).
Qed.

Lemma completes_eq {A} b b' (m : M A) : b = b' → completes b m → completes b' m.
Proof. by intros ->. Qed.

Lemma completes_mapM {A B} (t : A → bool) (f : A → M B) (l : list A) :
  list_all A (λ x, completes (t x) (f x)) l → completes (forallb t l) (mapM f l).
Proof.
  induction 1 as [|x Hx l _ IH]; simpl; [apply completes_ret|].
  apply completes_bind; [done|]. intros y.
  eapply completes_eq; [|apply completes_bind; [exact IH|intros; apply completes_ret]].
  apply andb_true_r.
Qed.

Lemma completes_setSourceMapRange expr ast :
  completes true (setSourceMapRange expr ast).
Proof.
  intros s. unfold setSourceMapRange.
  destruct (sourceSpan ast); [|by eexists _, _].
  cbn zeta. destruct (truthy _); by eexists _, _.
Qed.

Lemma completes_onImports {A} (m : ImportManager → A * ImportManager) :
  completes true (onImports m).
Proof. intros s. unfold onImports. destruct (m (imports s)). by eexists _, _. Qed.

Lemma completes_recordUsedIdentifier node :
  completes true (recordUsedIdentifier node).
Proof. intros s. by eexists _, _. Qed.
End Completes.

Lemma allFirst_0 {A} (f : A → bool) l : allFirst f l 0 = true.
Proof. by destruct l. Qed.

Lemma list_all_Forall {A} (P : A → Prop) (l : list A) : list_all A P l → Forall P l.
Proof. induction 1; constructor; auto. Qed.

Lemma completes_localizedSpans scriptTarget (ast : LocalizedStringOf Expression)
    context turns : ∀ i acc,
  Forall (λ e, ∀ c, completes (translatable scriptTarget e)
                      (visitExpression scriptTarget e c)) (expressions ast) →
  completes (allFirst (translatable scriptTarget) (drop i (expressions ast)) turns)
    (localizedSpans (dispatched (visitExpression scriptTarget) ast) context
       (λ e c, e c) turns (S i) acc).
Proof.
  induction turns as [|turns IH]; intros i acc Hall.
  - rewrite allFirst_0. apply completes_ret.
  - cbn [localizedSpans]. unfold localizedSpan. cbn [expressions dispatched].
    replace (S i - 1) with i by lia. rewrite list_lookup_fmap.
    destruct (expressions ast !! i) as [e|] eqn:Hi; simpl.
    + rewrite (drop_S _ _ _ Hi). simpl.
      apply completes_bind; [|intros; by apply IH].
      eapply completes_eq; [apply andb_true_r|].
      apply completes_bind; [|intros; apply completes_ret].
      rewrite Forall_lookup in Hall. by apply (Hall i).
    + rewrite drop_ge by by apply lookup_ge_None. simpl.
      apply completes_bind_never, completes_throw.
Qed.

Lemma completes_visitLocalizedString scriptTarget (ast : LocalizedStringOf Expression)
    context :
  Forall (λ e, ∀ c, completes (translatable scriptTarget e)
                      (visitExpression scriptTarget e c)) (expressions ast) →
  completes (bool_decide (length (messageParts ast) = 1)
             || allFirst (translatable scriptTarget) (expressions ast)
                  (length (messageParts ast) - 1))
    (visitLocalizedString (dispatched (visitExpression scriptTarget) ast) context
       (λ e c, e c)).
Proof.
  intros Hall. unfold visitLocalizedString. cbn [messageParts dispatched].
  eapply completes_eq; [apply andb_true_r|].
  apply completes_bind; [|intros; apply completes_ret].
  case_decide as Hone.
  - rewrite bool_decide_eq_true_2 by done. apply completes_ret.
  - rewrite bool_decide_eq_false_2 by done. simpl.
    eapply completes_eq; [apply andb_true_r|].
    apply completes_bind; [|intros; apply completes_ret].
    by apply (completes_localizedSpans scriptTarget ast context _ 0 []).
Qed.

Ltac completes_step :=
  first
    [ apply completes_ret
    | apply completes_throw
    | apply completes_setSourceMapRange
    | apply completes_onImports
    | apply completes_recordUsedIdentifier
    | match goal with
      | H : ∀ c, completes _ (_ ?e c) |- completes _ (_ ?e _) => apply H
      end
    | apply completes_bind; [|intros]
    | apply completes_mapM; eapply list_all_weaken; [|eassumption]; cbn beta; intros ].

(** Solves [completes b m] for a method body [m]: builds the conjunction
    the binds give and checks it is [b]. *)
Ltac completes_body :=
  eapply completes_eq; [|repeat completes_step];
  rewrite ?andb_true_r, ?andb_assoc; reflexivity.

(** A visit completes exactly on translatable IR, whatever the context
    and the state. *)
Lemma visit_completes (scriptTarget : ts.ScriptTarget) :
  (∀ ast context,
     completes (translatable scriptTarget ast) (visitExpression scriptTarget ast context))
  ∧ (∀ stmt context,
       completes (translatableStmt scriptTarget stmt)
         (visitStatement scriptTarget stmt context)).
Proof.
  apply Expression_Statement_ind; intros;
    cbn [visitExpression visitStatement translatable translatableStmt].
  all: try (unfold visitReadVarExpr, visitWriteVarExpr, visitWriteKeyExpr,
              visitWritePropExpr, visitInvokeMethodExpr, visitInvokeFunctionExpr,
              visitInstantiateExpr, visitLiteralExpr,
              visitNotExpr, visitAssertNotNullExpr, visitCastExpr, visitFunctionExpr,
              visitReadPropExpr, visitReadKeyExpr,
              visitLiteralArrayExpr, visitCommaExpr, visitWrappedNodeExpr,
              visitTypeofExpr, visitDeclareFunctionStmt, visitExpressionStmt,
              visitReturnStmt, visitTryCatchStmt,
              visitThrowStmt, visitCommentStmt, visitJSDocCommentStmt;
            solve [completes_body]).
  - unfold visitLocalizedStringExpr.
    destruct H as [parts exprs Hall head part].
    apply list_all_Forall in Hall.
    destruct (decide (ts.ScriptTarget_value scriptTarget
                      < ts.ScriptTarget_value ts.ES2015)) as [Hlow|Hlow].
    + rewrite (bool_decide_eq_true_2 _ Hlow).
      rewrite (bool_decide_eq_false_2 (ts.ScriptTarget_value ts.ES2015 ≤ _)) by lia.
      apply completes_throw.
    + rewrite (bool_decide_eq_false_2 _ Hlow).
      rewrite (bool_decide_eq_true_2 (ts.ScriptTarget_value ts.ES2015 ≤ _)) by lia.
      by apply (completes_visitLocalizedString scriptTarget
                  (Build_LocalizedStringOf _ parts exprs head part) context).
  - unfold visitExternalExpr. destruct (name _); [|apply completes_throw].
    destruct (moduleName _); [|apply completes_ret].
    apply (completes_bind true true); [apply completes_onImports|].
    intros r. destruct (moduleImport r); apply completes_ret.
  - unfold visitConditionalExpr. destruct H1 as [falseCase HfalseCase|].
    + completes_body.
    + eapply completes_eq;
        [|apply completes_bind; [apply H|intros; apply completes_bind;
            [apply H0|intros; apply completes_bind_never, completes_throw]]].
      by rewrite !andb_false_r.
  - unfold visitBinaryOperatorExpr, JsMap.has.
    destruct (JsMap.get BINARY_OPERATORS operator); [|apply completes_throw].
    completes_body.
  - unfold visitLiteralMapExpr.
    eapply completes_eq; [apply andb_true_r|].
    apply completes_bind; [|intros; apply completes_setSourceMapRange].
    induction H as [|entry Hentry entries' _ IH]; simpl; [apply completes_ret|].
    destruct Hentry as [key value Hvalue quoted]. simpl.
    apply completes_bind; [completes_body|]. intros property.
    eapply completes_eq; [apply andb_true_r|].
    apply completes_bind; [exact IH|]. intros. apply completes_ret.
  - unfold visitWrappedNodeExpr. destruct (ts.isIdentifier node); completes_body.
  - unfold visitDeclareVarStmt.
    destruct H as [value Hvalue|]; unfold optM; completes_body.
  - unfold visitDeclareClassStmt. case_bool_decide; apply completes_throw.
  - unfold visitIfStmt.
    eapply completes_eq;
      [|apply completes_bind; [apply H|intros; apply completes_bind;
          [apply completes_mapM; eapply list_all_weaken; [|exact H0]; cbn beta; auto
          |intros; apply completes_bind; [|intros; apply completes_ret]]]].
    { rewrite andb_true_r, andb_assoc. reflexivity. }
    destruct H1 as [|stmt Hstmt falseCase' HfalseCase'].
    + apply completes_ret.
    + rewrite bool_decide_eq_true_2 by (simpl; lia).
      eapply completes_eq; [apply andb_true_r|].
      apply completes_bind; [|intros; apply completes_ret].
      apply completes_mapM. constructor; [apply Hstmt|].
      eapply list_all_weaken; [|exact HfalseCase']. cbn beta. auto.
Qed.

(** ** State relations kept by every visit *)

Section Keeps.
Variable R : relation VisitorState.
Context `{!PreOrder R}.

Lemma keeps_ret {A} (a : A) : keeps R (ret a).
Proof. by intros s. Qed.

Lemma keeps_throw {A} e : keeps R (@throw A e).
Proof. by intros s. Qed.

Lemma keeps_bind {A B} (m : M A) (k : A → M B) :
  keeps R m → (∀ a, keeps R (k a)) → keeps R (bind m k).
Proof.
  intros Hm Hk s. unfold bind. specialize (Hm s).
  destruct (m s) as [[a|e] s1]; simpl in *; [|done].
  etrans; [exact Hm | apply Hk].
Qed.

Lemma keeps_mapM {A B} (f : A → M B) (l : list A) :
  list_all A (λ x, keeps R (f x)) l → keeps R (mapM f l).
Proof.
  induction 1 as [|x Hx l _ IH]; simpl; [apply keeps_ret|].
  apply keeps_bind; [done|]. intros y.
  apply keeps_bind; [done|]. intros ys. apply keeps_ret.
Qed.

Lemma keeps_localizedSpans (ast : LocalizedStringOf (Context → M ts.Node))
    context turns : ∀ i acc,
  Forall (λ e, ∀ c, keeps R (e c)) (expressions ast) →
  keeps R (localizedSpans ast context (λ e c, e c) turns i acc).
Proof.
  induction turns as [|turns IH]; intros i acc Hall; simpl.
  - apply keeps_ret.
  - apply keeps_bind; [|intros; by apply IH].
    unfold localizedSpan. destruct (expressions ast !! (i - 1)) as [e|] eqn:He.
    + apply keeps_bind; [|intros; apply keeps_ret].
      rewrite Forall_lookup in Hall. by apply (Hall _ _ He).
    + apply keeps_throw.
Qed.

Hypothesis keeps_setSourceMapRange : ∀ expr ast, keeps R (setSourceMapRange expr ast).
Hypothesis keeps_generateNamedImport :
  ∀ moduleName symbol, keeps R (onImports (generateNamedImport moduleName symbol)).
Hypothesis keeps_recordUsedIdentifier :
  ∀ node, ts.isIdentifier node = true → keeps R (recordUsedIdentifier node).

Ltac keeps_R_step :=
  first
    [ apply keeps_ret
    | apply keeps_throw
    | apply keeps_setSourceMapRange
    | apply keeps_generateNamedImport
    | match goal with
      | H : ∀ c, keeps R (_ ?e c) |- keeps R (_ ?e _) => apply H
      end
    | apply keeps_bind; [|intros]
    | apply keeps_mapM; eapply list_all_weaken; [|eassumption]; cbn beta; intros
    | match goal with
      | |- keeps R (if ?b then _ else _) => destruct b
      | |- keeps R (match ?o with _ => _ end) => destruct o
      end ].

(** A relation on states that is reflexive and transitive and that the
    three state-changing operations keep is kept by every visit. *)
Lemma visit_keeps (scriptTarget : ts.ScriptTarget) :
  (∀ ast context, keeps R (visitExpression scriptTarget ast context))
  ∧ (∀ stmt context, keeps R (visitStatement scriptTarget stmt context)).
Proof.
  apply Expression_Statement_ind; intros;
    cbn [visitExpression visitStatement].
  all: try (unfold visitReadVarExpr, visitWriteVarExpr, visitWriteKeyExpr,
              visitWritePropExpr, visitInvokeMethodExpr, visitInvokeFunctionExpr,
              visitInstantiateExpr, visitLiteralExpr, visitExternalExpr,
              visitNotExpr, visitAssertNotNullExpr, visitCastExpr, visitFunctionExpr,
              visitBinaryOperatorExpr, visitReadPropExpr, visitReadKeyExpr,
              visitLiteralArrayExpr, visitCommaExpr,
              visitTypeofExpr, visitDeclareFunctionStmt, visitExpressionStmt,
              visitReturnStmt, visitDeclareClassStmt, visitIfStmt, visitTryCatchStmt,
              visitThrowStmt, visitCommentStmt, visitJSDocCommentStmt;
            solve [repeat keeps_R_step]).
  - unfold visitLocalizedStringExpr. case_bool_decide; [apply keeps_throw|].
    unfold visitLocalizedString.
    apply keeps_bind; [|intros; apply keeps_ret].
    case_decide; [apply keeps_ret|].
    apply keeps_bind; [|intros; apply keeps_ret].
    apply keeps_localizedSpans.
    destruct H as [parts exprs Hall head part]. simpl.
    apply list_all_Forall in Hall. rewrite Forall_fmap.
    eapply Forall_impl; [exact Hall|]. cbn beta. auto.
  - unfold visitConditionalExpr.
    destruct H1 as [falseCase HfalseCase|]; repeat keeps_R_step.
  - unfold visitLiteralMapExpr. apply keeps_bind; [|intros; repeat keeps_R_step].
    induction H as [|entry Hentry entries' _ IH]; simpl; [apply keeps_ret|].
    destruct Hentry as [key value Hvalue quoted]. simpl.
    apply keeps_bind; [repeat keeps_R_step|]. intros property.
    apply keeps_bind; [exact IH|]. intros. apply keeps_ret.
  - unfold visitWrappedNodeExpr. apply keeps_bind; [|intros; apply keeps_ret].
    destruct (ts.isIdentifier node) eqn:Hnode; [by apply keeps_recordUsedIdentifier|].
    apply keeps_ret.
  - unfold visitDeclareVarStmt. apply keeps_bind; [|intros; apply keeps_ret].
    destruct H as [value Hvalue|]; simpl; repeat keeps_R_step.
Qed.
End Keeps.

(** *** The import manager only grows *)

Lemma generateNamedImport_grows moduleName originalSymbol this :
  let this' := (generateNamedImport moduleName originalSymbol this).2 in
  rewriter this' = rewriter this ∧ prefix this' = prefix this
  ∧ nextIndex this ≤ nextIndex this'
  ∧ ∃ more, specifierToIdentifier this' = specifierToIdentifier this ++ more.
Proof.
  unfold generateNamedImport.
  destruct (shouldImportSymbol _ _ _); simpl.
  2:{ split_and!; [done|done|done|]. exists []. by rewrite app_nil_r. }
  unfold JsMap.has.
  destruct (JsMap.get (specifierToIdentifier this) moduleName) eqn:Hget; simpl.
  - split_and!; [done|done|done|]. exists []. by rewrite app_nil_r.
  - split_and!; [done|done|lia|]. rewrite JsMap_set_fresh by done. by eexists.
Qed.

#[local] Instance importsGrow_preorder : PreOrder importsGrow.
Proof.
  split.
  - intros s. split_and!; [done|done|done| |].
    + exists []. by rewrite app_nil_r.
    + intros modules Htr. exists []. by rewrite app_nil_r.
  - intros s1 s2 s3 (Hrw1 & Hp1 & Hn1 & [more1 Hmap1] & Htr1)
      (Hrw2 & Hp2 & Hn2 & [more2 Hmap2] & Htr2).
    split_and!; [congruence|congruence|lia| |].
    + exists (more1 ++ more2). by rewrite Hmap2, Hmap1, app_assoc.
    + intros modules Htr. destruct (Htr1 _ Htr) as [m1 Htr'].
      destruct (Htr2 _ Htr') as [m2 Htr'']. exists (m1 ++ m2).
      by rewrite app_assoc.
Qed.

Lemma importsGrow_same_imports s s' : imports s' = imports s → importsGrow s s'.
Proof.
  intros Heq. unfold importsGrow. rewrite Heq.
  split_and!; [done|done|done| |].
  - exists []. by rewrite app_nil_r.
  - intros modules Htr. exists []. by rewrite app_nil_r.
Qed.

Lemma visit_importsGrow (scriptTarget : ts.ScriptTarget) :
  (∀ ast context, keeps importsGrow (visitExpression scriptTarget ast context))
  ∧ (∀ stmt context, keeps importsGrow (visitStatement scriptTarget stmt context)).
Proof.
  apply visit_keeps; [apply _| | |].
  - intros expr ast s. apply importsGrow_same_imports. unfold setSourceMapRange.
    destruct (sourceSpan ast); [|done]. cbn zeta.
    destruct (truthy _); [|done]. simpl. by case_bool_decide.
  - intros moduleName originalSymbol s. unfold onImports.
    pose proof (generateNamedImport_grows moduleName originalSymbol (imports s)) as Hgrow.
    pose proof (λ modules, generateNamedImport_tracks (imports s) modules
                             moduleName originalSymbol) as Htracks.
    destruct (generateNamedImport moduleName originalSymbol (imports s)) as [r imports'].
    simpl in *. destruct Hgrow as (Hrw & Hp & Hn & Hmore).
    split_and!; [done|done|done|done|].
    intros modules Htr. destruct (Htracks modules Htr) as (Htr' & _).
    destruct (firstSeen_extends (rewriter (imports s)) modules
                [(moduleName, originalSymbol)]) as [more Hmore'].
    exists more. by rewrite <- Hmore'.
  - intros node _ s. by apply importsGrow_same_imports.
Qed.

(** *** The recorder is told of identifiers only *)

#[local] Instance recordsGrow_preorder : PreOrder recordsGrow.
Proof.
  split.
  - intros s. exists []. by rewrite app_nil_r.
  - intros s1 s2 s3 (more1 & Hrec1 & Hid1) (more2 & Hrec2 & Hid2).
    exists (more1 ++ more2). split; [by rewrite Hrec2, Hrec1, app_assoc|].
    by apply Forall_app.
Qed.

Lemma recordsGrow_same_records s s' :
  recordedIdentifiers s' = recordedIdentifiers s → recordsGrow s s'.
Proof. intros Heq. exists []. by rewrite app_nil_r. Qed.

Lemma visit_recordsGrow (scriptTarget : ts.ScriptTarget) :
  (∀ ast context, keeps recordsGrow (visitExpression scriptTarget ast context))
  ∧ (∀ stmt context, keeps recordsGrow (visitStatement scriptTarget stmt context)).
Proof.
  apply visit_keeps; [apply _| | |].
  - intros expr ast s. apply recordsGrow_same_records. unfold setSourceMapRange.
    destruct (sourceSpan ast); [|done]. cbn zeta.
    destruct (truthy _); [|done]. simpl. by case_bool_decide.
  - intros moduleName originalSymbol s. apply recordsGrow_same_records.
    unfold onImports. by destruct (generateNamedImport _ _ _).
  - intros node Hnode s. exists [node]. split; [done|]. by constructor.
Qed.

(** *** One source handle per URL *)

#[local] Instance sourceCacheStaysOk_preorder : PreOrder sourceCacheStaysOk.
Proof.
  split.
  - intros s Hok. exact Hok.
  - intros s1 s2 s3 H12 H23 Hok. apply H23, H12, Hok.
Qed.

Lemma sourceCacheStaysOk_same s s' :
  externalSourceFiles s' = externalSourceFiles s →
  sourcesCreated s' = sourcesCreated s → sourceCacheStaysOk s s'.
Proof. intros Hcache Hcount. unfold sourceCacheStaysOk, sourceCacheOk. by rewrite Hcache, Hcount. Qed.

Lemma cacheSourceFile_ok url content s :
  externalSourceFiles s !! url = None →
  sourceCacheOk s → sourceCacheOk (cacheSourceFile url content s).
Proof.
  intros Hfresh (Hname & Hinj & Hsize). unfold sourceCacheOk, cacheSourceFile; simpl.
  split_and!.
  - intros u h. rewrite lookup_insert. case_decide as Hu.
    + intros [= <-]. simpl. split; [done|lia].
    + intros Hh. destruct (Hname _ _ Hh). split; [done|lia].
  - intros u1 u2 h1 h2. rewrite !lookup_insert.
    case_decide as Hu1; case_decide as Hu2; try congruence.
    + intros [= <-] Hh2 Hid. simpl in Hid. destruct (Hname _ _ Hh2). lia.
    + intros Hh1 [= <-] Hid. simpl in Hid. destruct (Hname _ _ Hh1). lia.
    + apply Hinj.
  - rewrite map_size_insert_None by done. by rewrite Hsize.
Qed.

Lemma visit_sourceCacheStaysOk (scriptTarget : ts.ScriptTarget) :
  (∀ ast context, keeps sourceCacheStaysOk (visitExpression scriptTarget ast context))
  ∧ (∀ stmt context, keeps sourceCacheStaysOk (visitStatement scriptTarget stmt context)).
Proof.
  apply visit_keeps; [apply _| | |].
  - intros expr ast s. unfold setSourceMapRange.
    destruct (sourceSpan ast); [|done]. cbn zeta.
    destruct (truthy _); [|done]. simpl.
    case_bool_decide as Hcached; simpl; [done|].
    intros Hok. apply cacheSourceFile_ok; [|done]. by apply eq_None_not_Some.
  - intros moduleName originalSymbol s. apply sourceCacheStaysOk_same;
      unfold onImports; by destruct (generateNamedImport _ _ _).
  - intros node _ s. by apply sourceCacheStaysOk_same.
Qed.

Lemma newVisitor_sourceCacheOk imports : sourceCacheOk (newVisitor imports).
Proof.
  unfold sourceCacheOk, newVisitor; simpl. split_and!.
  - intros url h. by rewrite lookup_empty.
  - intros url1 url2 h1 h2. by rewrite lookup_empty.
  - apply map_size_empty.
Qed.

(** ** Further properties of the translator *)

(** X1.  A visit of an expression or statement that is not translatable
    throws, whatever the context and the state it starts from: every
    unsupported construct that a visit reaches makes it raise. *)
Theorem visit_untranslatable_throws
    (scriptTarget : ts.ScriptTarget) (context : Context) (s : VisitorState) :
  (∀ ast, translatable scriptTarget ast = false →
     ∃ e s', visitExpression scriptTarget ast context s = (Thrown e, s'))
  ∧ (∀ stmt, translatableStmt scriptTarget stmt = false →
       ∃ e s', visitStatement scriptTarget stmt context s = (Thrown e, s')).
Proof.
  split.
  - intros ast Hno.
    pose proof (proj1 (visit_completes scriptTarget) ast context) as Hc.
    rewrite Hno in Hc. specialize (Hc s).
    destruct (visitExpression scriptTarget ast context s) as [[n|e] s'].
    + by destruct (Hc n s').
    + by exists e, s'.
  - intros stmt Hno.
    pose proof (proj2 (visit_completes scriptTarget) stmt context) as Hc.
    rewrite Hno in Hc. specialize (Hc s).
    destruct (visitStatement scriptTarget stmt context s) as [[n|e] s'].
    + by destruct (Hc n s').
    + by exists e, s'.
Qed.

Lemma visit_untranslatable_throws_witness :
  let s := newVisitor defaultImportManager in
  translatable ts.ES2015 (LiteralArrayExpr [literal1; conditionalCommaNoElse] None) = false
  ∧ (∃ e s', visitExpression ts.ES2015
               (LiteralArrayExpr [literal1; conditionalCommaNoElse] None)
               (mkContext false) s = (Thrown e, s'))
  ∧ translatableStmt ts.ES2015 (IfStmt literal1 [TryCatchStmt [] []] []) = false
  ∧ (∃ e s', visitStatement ts.ES2015 (IfStmt literal1 [TryCatchStmt [] []] [])
               (mkContext true) s = (Thrown e, s')).
Proof.
  intros s.
  pose proof (visit_untranslatable_throws ts.ES2015 (mkContext false) s) as [Hexpr _].
  pose proof (visit_untranslatable_throws ts.ES2015 (mkContext true) s) as [_ Hstmt].
  split_and!; [reflexivity | by apply Hexpr | reflexivity | by apply Hstmt].
Defined.



Example translatable_samples :
  map (translatable ts.ES2015)
    [assignABX; conditionalSpanned; conditionalNoElse; conditionalCommaNoElse;
     functionIfAssignX;
     FunctionExpr [] [TryCatchStmt [] []] None None;
     InvokeFunctionExpr (ReadVarExpr "f" None) [CommaExpr [] None] false None]
  = [true; true; false; false; true; false; false].
Proof. reflexivity. Qed.

(** X3.  However a visit completes, the import manager it leaves is the
    one it found with entries added at the end: the policy and the prefix
    are the same, the counter has not decreased, an alias a module had
    before it still has, and an alias table is still an alias table, of
    the same modules followed by new ones. *)
Theorem visit_keeps_aliases (scriptTarget : ts.ScriptTarget) (context : Context)
    (s : VisitorState) :
  (∀ ast,
     let s' := (visitExpression scriptTarget ast context s).2 in
     importsGrow s s'
     ∧ ∀ m a, JsMap.get (specifierToIdentifier (imports s)) m = Some a →
              JsMap.get (specifierToIdentifier (imports s')) m = Some a)
  ∧ (∀ stmt,
       let s' := (visitStatement scriptTarget stmt context s).2 in
       importsGrow s s'
       ∧ ∀ m a, JsMap.get (specifierToIdentifier (imports s)) m = Some a →
                JsMap.get (specifierToIdentifier (imports s')) m = Some a).
Proof.
  assert (∀ s', importsGrow s s' →
            ∀ m a, JsMap.get (specifierToIdentifier (imports s)) m = Some a →
                   JsMap.get (specifierToIdentifier (imports s')) m = Some a) as Hget.
  { intros s' (_ & _ & _ & [more ->] & _) m a. apply JsMap_get_app_l. }
  split.
  - intros ast s'.
    pose proof (proj1 (visit_importsGrow scriptTarget) ast context s) as Hgrow.
    split; [exact Hgrow | by apply Hget].
  - intros stmt s'.
    pose proof (proj2 (visit_importsGrow scriptTarget) stmt context s) as Hgrow.
    split; [exact Hgrow | by apply Hget].
Qed.

Lemma visit_keeps_aliases_witness :
  let s := withImports (newVisitor defaultImportManager)
             (generateNamedImports [("@angular/core", "Component")]
                defaultImportManager).2 in
  let s' := (visitExpression ts.ES2015 externalObservable (mkContext false) s).2 in
  JsMap.get (specifierToIdentifier (imports s)) "@angular/core" = Some "i0"
  ∧ JsMap.get (specifierToIdentifier (imports s')) "@angular/core" = Some "i0"
  ∧ tracks (imports s) ["@angular/core"]
  ∧ ∃ more, tracks (imports s') (["@angular/core"] ++ more).
Proof.
  intros s s'.
  pose proof (proj1 (visit_keeps_aliases ts.ES2015 (mkContext false) s)
                externalObservable) as [Hgrow Hget].
  assert (tracks (imports s) ["@angular/core"]) as Htr.
  { split_and!; [reflexivity | reflexivity |]. apply NoDup_singleton. }
  split_and!; [reflexivity | exact (Hget "@angular/core" "i0" eq_refl) | exact Htr |].
  destruct Hgrow as (_ & _ & _ & _ & Htracks). exact (Htracks _ Htr).
Defined.

(** X4.  However a visit completes, the default-import recorder has been
    told what it had been told before, followed by further nodes, each of
    them an identifier. *)
Theorem visit_records_identifiers (scriptTarget : ts.ScriptTarget)
    (context : Context) (s : VisitorState) :
  (∀ ast, recordsGrow s (visitExpression scriptTarget ast context s).2)
  ∧ (∀ stmt, recordsGrow s (visitStatement scriptTarget stmt context s).2).
Proof.
  split.
  - intros ast. apply (proj1 (visit_recordsGrow scriptTarget)).
  - intros stmt. apply (proj2 (visit_recordsGrow scriptTarget)).
Qed.

Example visitWrappedNodeExpr_records :
  recordedIdentifiers
    (translateExpression
       (LiteralArrayExpr [wrappedFoo; WrappedNodeExpr tsAssignX None; wrappedFoo] None)
       defaultImportManager ts.ES2015).2
  = [ts.createIdentifier "foo"; ts.createIdentifier "foo"].
Proof. reflexivity. Qed.

(** X5.  After translating an expression or a statement, the source cache
    of the visitor holds one handle per URL: each cached handle carries
    the URL it is cached for, handles of different URLs have different
    identities, and exactly the cached handles were created. *)
Theorem translate_sourceCacheOk (imports : ImportManager)
    (scriptTarget : ts.ScriptTarget) :
  (∀ expression, sourceCacheOk (translateExpression expression imports scriptTarget).2)
  ∧ (∀ statement, sourceCacheOk (translateStatement statement imports scriptTarget).2).
Proof.
  split.
  - intros expression.
    apply (proj1 (visit_sourceCacheStaysOk scriptTarget) expression (mkContext false)),
      newVisitor_sourceCacheOk.
  - intros statement.
    apply (proj2 (visit_sourceCacheStaysOk scriptTarget) statement (mkContext true)),
      newVisitor_sourceCacheOk.
Qed.

(** ** Context *)

Lemma withStatementMode_constant context : withStatementMode context = mkContext true.
Proof. by destruct context as [[]]. Qed.

Lemma withExpressionMode_constant context : withExpressionMode context = mkContext false.
Proof. by destruct context as [[]]. Qed.

(** X6.  The translation of a statement other than an [if] does not
    depend on the context it is visited in: the statement hands its
    operands the mode of their position.  An [if] hands the incoming
    context to its condition and to nothing else. *)
Theorem visitStatement_context_independent
    (scriptTarget : ts.ScriptTarget) (stmt : Statement) (context1 context2 : Context)
    (s : VisitorState) :
  ((∀ condition trueCase falseCase, stmt ≠ IfStmt condition trueCase falseCase) →
   visitStatement scriptTarget stmt context1 s
   = visitStatement scriptTarget stmt context2 s)
  ∧ (∀ condition trueCase falseCase,
       stmt = IfStmt condition trueCase falseCase →
       visitExpression scriptTarget condition context1 s
       = visitExpression scriptTarget condition context2 s →
       visitStatement scriptTarget stmt context1 s
       = visitStatement scriptTarget stmt context2 s).
Proof.
  split.
  - intros Hif. destruct stmt; simpl; try done.
    + unfold visitDeclareVarStmt. by rewrite !withExpressionMode_constant.
    + unfold visitDeclareFunctionStmt. by rewrite !withStatementMode_constant.
    + unfold visitExpressionStmt. by rewrite !withStatementMode_constant.
    + unfold visitReturnStmt. by rewrite !withExpressionMode_constant.
    + by destruct (Hif condition trueCase falseCase).
    + unfold visitThrowStmt. by rewrite !withExpressionMode_constant.
  - intros condition trueCase falseCase -> Hcondition. simpl.
    unfold visitIfStmt, bind. rewrite Hcondition, !withStatementMode_constant. done.
Qed.

Lemma visitStatement_context_independent_witness :
  let s := newVisitor defaultImportManager in
  (∀ condition trueCase falseCase,
     ReturnStatement assignX ≠ IfStmt condition trueCase falseCase)
  ∧ visitStatement ts.ES2015 (ReturnStatement assignX) (mkContext true) s
    = visitStatement ts.ES2015 (ReturnStatement assignX) (mkContext false) s
  ∧ visitStatement ts.ES2015 (ReturnStatement assignX) (mkContext true) s
    = (Normal (ts.createReturn (ts.createParen tsAssignX)), s)
  ∧ visitExpression ts.ES2015 literal1 (mkContext true) s
    = visitExpression ts.ES2015 literal1 (mkContext false) s
  ∧ visitStatement ts.ES2015 (IfStmt literal1 [] []) (mkContext true) s
    = visitStatement ts.ES2015 (IfStmt literal1 [] []) (mkContext false) s.
Proof.
  intros s.
  assert (∀ condition trueCase falseCase,
            ReturnStatement assignX ≠ IfStmt condition trueCase falseCase) as Hif
    by discriminate.
  split_and!; [exact Hif | | reflexivity | reflexivity | ].
  - exact (proj1 (visitStatement_context_independent ts.ES2015 (ReturnStatement assignX)
                    (mkContext true) (mkContext false) s) Hif).
  - exact (proj2 (visitStatement_context_independent ts.ES2015 (IfStmt literal1 [] [])
                    (mkContext true) (mkContext false) s) literal1 [] [] eq_refl eq_refl).
Defined.

(** The condition of an [if] does see the context: in the body of a
    function expression visited in expression mode, an assignment used as
    condition is parenthesized, where the same statement at top level has
    it bare. *)
Example visitIfStmt_condition_context :
  (translateExpression functionIfAssignX defaultImportManager ts.ES2015).1
  = Normal (ts.createFunctionExpression None []
              (ts.createBlock
                 [ts.createIf (ts.createParen tsAssignX) (ts.createBlock []) None]))
  ∧ (translateStatement ifAssignX defaultImportManager ts.ES2015).1
    = Normal (ts.createIf tsAssignX (ts.createBlock []) None).
Proof. split; reflexivity. Qed.

(** ** ImportManager, continued *)

(** X7.  Asking again for the import just generated returns the same
    answer and changes nothing, on any manager. *)
Theorem generateNamedImport_idempotent
    (this : ImportManager) (moduleName originalSymbol : string) :
  generateNamedImport moduleName originalSymbol
    (generateNamedImport moduleName originalSymbol this).2
  = generateNamedImport moduleName originalSymbol this.
Proof.
  destruct (generateNamedImport moduleName originalSymbol this) as [r this1] eqn:Hfirst.
  simpl. unfold generateNamedImport in Hfirst.
  destruct (shouldImportSymbol (rewriter this) _ _) eqn:Hshould; simpl in Hfirst.
  2:{ injection Hfirst as <- <-. unfold generateNamedImport. by rewrite Hshould. }
  destruct (JsMap.has (specifierToIdentifier this) moduleName) eqn:Hhas;
    simpl in Hfirst; injection Hfirst as <- <-; unfold generateNamedImport; simpl;
    rewrite Hshould; simpl.
  - by rewrite Hhas.
  - unfold JsMap.has. rewrite JsMap_get_set_eq. simpl.
    by rewrite JsMap_get_set_eq.
Qed.

Lemma tracks_qualifiers this modules contextPath :
  tracks this modules →
  NoDup (qualifier <$> getAllImports contextPath this)
  ∧ length (getAllImports contextPath this) = nextIndex this.
Proof.
  intros Htr. rewrite (getAllImports_tracks this modules contextPath Htr).
  destruct Htr as (_ & -> & _). unfold expectedImports. split.
  - apply NoDup_alt. intros i j a.
    rewrite !list_lookup_fmap, !list_lookup_imap.
    destruct (modules !! i); [|done]. destruct (modules !! j); [|done]. simpl.
    intros [= <-] [= Heq]. symmetry. by apply alias_inj in Heq.
  - apply length_imap.
Qed.

(** X8.  The imports of a translation that started on a fresh import
    manager have pairwise different qualifiers, as many as the manager's
    counter says: two generated import declarations never bind the same
    alias. *)
Theorem translate_qualifiers_distinct
    (rw : ImportRewriter) (p : string) (scriptTarget : ts.ScriptTarget)
    (contextPath : string) :
  (∀ expression,
     let final := imports (translateExpression expression (newImportManager rw p)
                             scriptTarget).2 in
     NoDup (qualifier <$> getAllImports contextPath final)
     ∧ length (getAllImports contextPath final) = nextIndex final)
  ∧ (∀ statement,
       let final := imports (translateStatement statement (newImportManager rw p)
                               scriptTarget).2 in
       NoDup (qualifier <$> getAllImports contextPath final)
       ∧ length (getAllImports contextPath final) = nextIndex final).
Proof.
  split.
  - intros expression final.
    destruct (proj1 (visit_importsGrow scriptTarget) expression (mkContext false)
                (newVisitor (newImportManager rw p))) as (_ & _ & _ & _ & Htracks).
    destruct (Htracks [] (newImportManager_tracks rw p)) as [more Htr].
    by eapply tracks_qualifiers.
  - intros statement final.
    destruct (proj2 (visit_importsGrow scriptTarget) statement (mkContext true)
                (newVisitor (newImportManager rw p))) as (_ & _ & _ & _ & Htracks).
    destruct (Htracks [] (newImportManager_tracks rw p)) as [more Htr].
    by eapply tracks_qualifiers.
Qed.

(** ** The imports of a translation *)

Lemma generateNamedImports_app calls1 calls2 this :
  (generateNamedImports (calls1 ++ calls2) this).2
  = (generateNamedImports calls2 (generateNamedImports calls1 this).2).2.
Proof.
  revert this. induction calls1 as [|[m s] calls1 IH]; intros this; simpl; [done|].
  destruct (generateNamedImport m s this) as [r this1]. specialize (IH this1).
  destruct (generateNamedImports (calls1 ++ calls2) this1) as [rs this2].
  destruct (generateNamedImports calls1 this1) as [rs1 this1']. simpl in *.
  by destruct (generateNamedImports calls2 this1').
Qed.

Section ImportsAfter.
Lemma importsAfter_ret {A} (a : A) : importsAfter [] (ret a).
Proof. by intros s a' s' [= _ <-]. Qed.

Lemma importsAfter_throw {A} calls e : importsAfter calls (@throw A e).
Proof. by intros s a s'. Qed.

Lemma importsAfter_bind {A B} calls1 calls2 (m : M A) (k : A → M B) :
  importsAfter calls1 m → (∀ a, importsAfter calls2 (k a)) →
  importsAfter (calls1 ++ calls2) (bind m k).
Proof.
  intros Hm Hk s b s' (a & s1 & Ha & Hb)%bind_Normal_inv.
  rewrite generateNamedImports_app, <- (Hm _ _ _ Ha). by eapply Hk.
Qed.

Lemma importsAfter_eq {A} calls calls' (m : M A) :
  calls = calls' → importsAfter calls m → importsAfter calls' m.
Proof. by intros ->. Qed.

Lemma importsAfter_mapM {A B} (g : A → list (string * string)) (f : A → M B) l :
  list_all A (λ x, importsAfter (g x) (f x)) l →
  importsAfter (flat_map g l) (mapM f l).
Proof.
  induction 1 as [|x Hx l _ IH]; simpl; [apply importsAfter_ret|].
  apply importsAfter_bind; [done|]. intros y.
  eapply importsAfter_eq; [apply app_nil_r|].
  apply importsAfter_bind; [exact IH|]. intros. apply importsAfter_ret.
Qed.

Lemma importsAfter_setSourceMapRange expr ast :
  importsAfter [] (setSourceMapRange expr ast).
Proof.
  intros s a s'. unfold setSourceMapRange.
  destruct (sourceSpan ast); [|by intros [= _ <-]]. cbn zeta.
  destruct (truthy _); [|by intros [= _ <-]].
  intros [= _ <-]. by case_bool_decide.
Qed.

Lemma importsAfter_generateNamedImport moduleName symbol :
  importsAfter [(moduleName, symbol)] (onImports (generateNamedImport moduleName symbol)).
Proof.
  intros s a s'. unfold onImports. simpl.
  destruct (generateNamedImport moduleName symbol (imports s)) as [r imports'].
  by intros [= _ <-].
Qed.

Lemma importsAfter_recordUsedIdentifier node :
  importsAfter [] (recordUsedIdentifier node).
Proof. by intros s a s' [= _ <-]. Qed.
End ImportsAfter.

Lemma importsAfter_localizedSpans (ast : LocalizedStringOf Expression)
    scriptTarget context turns : ∀ i acc,
  Forall (λ e, ∀ c, importsAfter (externalCalls e) (visitExpression scriptTarget e c))
    (expressions ast) →
  importsAfter (flatFirst externalCalls (drop i (expressions ast)) turns)
    (localizedSpans (dispatched (visitExpression scriptTarget) ast) context
       (λ e c, e c) turns (S i) acc).
Proof.
  induction turns as [|turns IH]; intros i acc Hall.
  - replace (flatFirst _ _ 0) with (@nil (string * string))
      by by destruct (drop i (expressions ast)).
    apply importsAfter_ret.
  - cbn [localizedSpans]. unfold localizedSpan. cbn [expressions dispatched].
    replace (S i - 1) with i by lia. rewrite list_lookup_fmap.
    destruct (expressions ast !! i) as [e|] eqn:Hi; simpl.
    + rewrite (drop_S _ _ _ Hi). simpl.
      apply importsAfter_bind; [|intros; by apply IH].
      eapply importsAfter_eq; [apply app_nil_r|].
      apply importsAfter_bind; [|intros; apply importsAfter_ret].
      rewrite Forall_lookup in Hall. by apply (Hall i).
    + intros s a s' (x & s1 & Hx & _)%bind_Normal_inv. discriminate Hx.
Qed.

Ltac importsAfter_step :=
  first
    [ apply importsAfter_ret
    | apply importsAfter_throw
    | apply importsAfter_setSourceMapRange
    | apply importsAfter_generateNamedImport
    | apply importsAfter_recordUsedIdentifier
    | match goal with
      | H : ∀ c, importsAfter _ (_ ?e c) |- importsAfter _ (_ ?e _) => apply H
      end
    | apply importsAfter_bind; [|intros]
    | apply importsAfter_mapM; eapply list_all_weaken; [|eassumption]; cbn beta; intros ].

Ltac importsAfter_body :=
  eapply importsAfter_eq; [|repeat importsAfter_step];
  rewrite ?app_nil_r; reflexivity.

Lemma visit_importsAfter (scriptTarget : ts.ScriptTarget) :
  (∀ ast context,
     importsAfter (externalCalls ast) (visitExpression scriptTarget ast context))
  ∧ (∀ stmt context,
       importsAfter (externalCallsStmt stmt) (visitStatement scriptTarget stmt context)).
Proof.
  apply Expression_Statement_ind; intros;
    cbn [visitExpression visitStatement externalCalls externalCallsStmt].
  all: try (unfold visitReadVarExpr, visitWriteVarExpr, visitWriteKeyExpr,
              visitWritePropExpr, visitInvokeMethodExpr, visitInvokeFunctionExpr,
              visitInstantiateExpr, visitLiteralExpr,
              visitNotExpr, visitAssertNotNullExpr, visitCastExpr, visitFunctionExpr,
              visitReadPropExpr, visitReadKeyExpr,
              visitLiteralArrayExpr, visitCommaExpr,
              visitTypeofExpr, visitDeclareFunctionStmt, visitExpressionStmt,
              visitReturnStmt, visitTryCatchStmt,
              visitThrowStmt, visitCommentStmt, visitJSDocCommentStmt;
            solve [importsAfter_body]).
  - unfold visitLocalizedStringExpr. case_bool_decide; [apply importsAfter_throw|].
    destruct H as [parts exprs Hall head part]. apply list_all_Forall in Hall.
    unfold visitLocalizedString. cbn [messageParts expressions dispatched].
    eapply importsAfter_eq; [apply app_nil_r|].
    apply importsAfter_bind; [|intros; apply importsAfter_ret].
    case_decide; [apply importsAfter_ret|].
    eapply importsAfter_eq; [apply app_nil_r|].
    apply importsAfter_bind; [|intros; apply importsAfter_ret].
    by apply (importsAfter_localizedSpans
                (Build_LocalizedStringOf _ parts exprs head part) scriptTarget context
                _ 0 []).
  - unfold visitExternalExpr. destruct (name _); [|apply importsAfter_throw].
    destruct (moduleName _); [|apply importsAfter_ret].
    eapply importsAfter_eq; [apply app_nil_r|].
    apply importsAfter_bind; [apply importsAfter_generateNamedImport|].
    intros r. destruct (moduleImport r); apply importsAfter_ret.
  - unfold visitConditionalExpr. destruct H1 as [falseCase HfalseCase|].
    + importsAfter_body.
    + intros s a s' Hvisit.
      apply bind_Normal_inv in Hvisit as (c & s1 & _ & Hvisit).
      apply bind_Normal_inv in Hvisit as (t & s2 & _ & Hvisit).
      apply bind_Normal_inv in Hvisit as (f & s3 & Hf & _). discriminate Hf.
  - unfold visitBinaryOperatorExpr.
    destruct (JsMap.get BINARY_OPERATORS operator); [|apply importsAfter_throw].
    importsAfter_body.
  - unfold visitLiteralMapExpr.
    eapply importsAfter_eq; [apply app_nil_r|].
    apply importsAfter_bind; [|intros; apply importsAfter_setSourceMapRange].
    induction H as [|entry Hentry entries' _ IH]; simpl; [apply importsAfter_ret|].
    destruct Hentry as [key value Hvalue quoted]. simpl.
    apply importsAfter_bind; [importsAfter_body|]. intros property.
    eapply importsAfter_eq; [apply app_nil_r|].
    apply importsAfter_bind; [exact IH|]. intros. apply importsAfter_ret.
  - unfold visitWrappedNodeExpr. destruct (ts.isIdentifier node); importsAfter_body.
  - unfold visitDeclareVarStmt.
    destruct H as [value Hvalue|]; unfold optM; importsAfter_body.
  - unfold visitDeclareClassStmt. case_bool_decide; apply importsAfter_throw.
  - unfold visitIfStmt.
    apply importsAfter_bind; [apply H|]. intros c.
    apply importsAfter_bind;
      [apply importsAfter_mapM; eapply list_all_weaken; [|exact H0]; cbn beta; auto|].
    intros thenBlock.
    eapply importsAfter_eq; [apply app_nil_r|].
    apply importsAfter_bind; [|intros; apply importsAfter_ret].
    destruct H1 as [|stmt Hstmt falseCase' HfalseCase'].
    + apply importsAfter_ret.
    + rewrite bool_decide_eq_true_2 by (simpl; lia).
      eapply importsAfter_eq; [apply app_nil_r|].
      apply importsAfter_bind; [|intros; apply importsAfter_ret].
      apply importsAfter_mapM. constructor; [apply Hstmt|].
      eapply list_all_weaken; [|exact HfalseCase']. cbn beta. auto.
Qed.

(** X9.  When a visit completes, the import manager is what the
    [generateNamedImport] calls for the external references of the IR, in
    visit order, make of the one before the visit.  So the imports of an
    expression translated with a fresh manager are the modules of its
    external references that need an import, each once, in the order of
    their first reference, numbered from 0. *)
Theorem visit_imports_externalCalls
    (scriptTarget : ts.ScriptTarget) (context : Context) :
  (∀ ast s n s',
     visitExpression scriptTarget ast context s = (Normal n, s') →
     imports s' = (generateNamedImports (externalCalls ast) (imports s)).2)
  ∧ (∀ stmt s n s',
       visitStatement scriptTarget stmt context s = (Normal n, s') →
       imports s' = (generateNamedImports (externalCallsStmt stmt) (imports s)).2)
  ∧ (∀ expression rw p n s' contextPath,
       translateExpression expression (newImportManager rw p) scriptTarget
       = (Normal n, s') →
       getAllImports contextPath (imports s')
       = expectedImports rw p contextPath
           (importedModules rw (externalCalls expression))).
Proof.
  split_and!.
  - intros ast. apply (proj1 (visit_importsAfter scriptTarget)).
  - intros stmt. apply (proj2 (visit_importsAfter scriptTarget)).
  - intros expression rw p n s' contextPath Htranslate.
    apply (proj1 (visit_importsAfter scriptTarget)) in Htranslate.
    simpl in Htranslate. rewrite Htranslate.
    pose proof (generateNamedImports_fresh rw p (externalCalls expression)) as Hfresh.
    destruct (generateNamedImports _ _) as [results final]. cbn zeta in Hfresh.
    destruct Hfresh as (Htr & Hrw & Hp & _). simpl.
    rewrite (getAllImports_tracks final _ contextPath Htr). by rewrite Hrw, Hp.
Qed.

Lemma visit_imports_externalCalls_witness :
  ∃ n s',
    translateExpression threeReferences defaultImportManager ts.ES2015 = (Normal n, s')
    ∧ externalCalls threeReferences
      = [("rxjs", "Observable"); ("@angular/core", "Component"); ("rxjs", "Subject")]
    ∧ getAllImports "/app/main.ts" (imports s')
      = [ {| specifier := "rxjs"; qualifier := "i0" |};
          {| specifier := "@angular/core"; qualifier := "i1" |} ].
Proof.
  destruct (translateExpression threeReferences defaultImportManager ts.ES2015)
    as [[n|e] s'] eqn:Htranslate; [|discriminate Htranslate].
  exists n, s'. split_and!; [reflexivity | reflexivity |].
  rewrite (proj2 (proj2 (visit_imports_externalCalls ts.ES2015 (mkContext false)))
             threeReferences NoopImportRewriter "i" n s' "/app/main.ts" Htranslate).
  reflexivity.
Defined.

(** ** The type visitor *)

Section TypeVisitorFacts.
Context {X : Type}.
Variable visitExpression_ : Expression → Context → MT X.

Lemma bindT_Normal_inv {A B} (m : MT A) (k : A → MT B) s b s' :
  bindT m k s = Some (Normal b, s') →
  ∃ a s1, m s = Some (Normal a, s1) ∧ k a s1 = Some (Normal b, s').
Proof.
  unfold bindT. destruct (m s) as [[[a|e] s1]|]; [|done|done].
  intros Hk. by exists a, s1.
Qed.

Lemma mapMT_never_Normal {A B} (t : A → bool) (f : A → MT B) (l : list A) :
  existsb t l = true →
  (∀ x, x ∈ l → t x = true → ∀ s r s', f x s ≠ Some (Normal r, s')) →
  ∀ s r s', mapMT f l s ≠ Some (Normal r, s').
Proof.
  induction l as [|x l IH]; simpl; [done|].
  intros Hex Hnever s r s' (y & s1 & Hy & Hrest)%bindT_Normal_inv.
  apply bindT_Normal_inv in Hrest as (ys & s2 & Hys & _).
  destruct (t x) eqn:Hx; simpl in Hex.
  - by eapply (Hnever x); [left| |].
  - eapply IH; [done| |exact Hys].
    intros x' Hx'. apply Hnever. by right.
Qed.

(** An array type exceeds every bound on the depth of calls. *)
Lemma visitArrayType_tooDeep depth of_ context s :
  visitType visitExpression_ depth (ArrayType of_) context s = None.
Proof.
  induction depth as [|depth IH]; [done|].
  simpl. unfold visitArrayType, bindT. by rewrite IH.
Qed.

Lemma visitType_reachesArray depth : ∀ type context s r s',
  reachesArray type = true →
  visitType visitExpression_ depth type context s ≠ Some (Normal r, s').
Proof.
  induction depth as [|depth IH]; intros type context s r s' Hreaches; [done|].
  destruct type as [name|value [typeParams|]|of_|[valueType|]]; try done.
  - simpl. unfold visitExpressionType.
    intros (expr & s1 & _ & Hrest)%bindT_Normal_inv.
    apply bindT_Normal_inv in Hrest as (typeArgs & s2 & Hargs & _).
    apply bindT_Normal_inv in Hargs as (args & s3 & Hargs & _).
    revert Hargs. eapply mapMT_never_Normal; [exact Hreaches|].
    intros param _ Hparam. intros. by apply IH.
  - by rewrite visitArrayType_tooDeep.
  - simpl. unfold visitMapType.
    intros (typeArgs & s1 & Hargs & _)%bindT_Normal_inv.
    apply bindT_Normal_inv in Hargs as (t & s2 & Ht & _).
    revert Ht. by apply IH.
Qed.

End TypeVisitorFacts.

(** X10.  Translating an array type produces no node: [visitArrayType]
    visits the array type it was given, not its element type, so the
    nested calls exceed every bound on their depth (a JavaScript engine
    ends them with a stack overflow).  A type that contains an array type
    among the type arguments or map values a visit reaches is never
    translated to a node, whatever the visitor's expression methods
    do. *)
Theorem translateType_array_never_translated {X : Type}
    (visitExpression_ : Expression → Context → MT X)
    (depth : nat) (of_ type : Type_) (imports : ImportManager) :
  translateType visitExpression_ depth (ArrayType of_) imports = None
  ∧ (reachesArray type = true →
     ∀ r s', translateType visitExpression_ depth type imports ≠ Some (Normal r, s')).
Proof.
  split.
  - apply visitArrayType_tooDeep.
  - intros Hreaches r s'. by apply visitType_reachesArray.
Qed.

Lemma translateType_array_never_translated_witness :
  reachesArray mapOfArrays = true
  ∧ translateType namedT 7 (ArrayType (BuiltinType BuiltinTypeName.String))
      defaultImportManager = None
  ∧ ∀ r s', translateType namedT 7 mapOfArrays defaultImportManager ≠ Some (Normal r, s').
Proof.
  pose proof (translateType_array_never_translated namedT 7
                (BuiltinType BuiltinTypeName.String) mapOfArrays defaultImportManager)
    as [Harray Hmap].
  split_and!; [reflexivity | exact Harray | exact (Hmap eq_refl)].
Defined.



(** ** Where the context matters *)

Section Agree.
Lemma agree_refl {A} (m : M A) : agree true m m.
Proof. by intros _ s. Qed.

Lemma agree_false {A} (m1 m2 : M A) : agree false m1 m2.
Proof. by intros ?. Qed.

Lemma agree_eq {A} b b' (m1 m2 : M A) : b = b' → agree b m1 m2 → agree b' m1 m2.
Proof. by intros ->. Qed.

Lemma agree_bind {A B} b1 b2 (m1 m2 : M A) (k1 k2 : A → M B) :
  agree b1 m1 m2 → (∀ a, agree b2 (k1 a) (k2 a)) →
  agree (b1 && b2) (bind m1 k1) (bind m2 k2).
Proof.
  intros Hm Hk [-> ->]%andb_true_iff s. unfold bind. rewrite (Hm eq_refl s).
  destruct (m2 s) as [[a|e] s1]; [|done]. by apply Hk.
Qed.

Lemma agree_mapM {A B C} (t : A → bool) (f : A → M B) (g : C → M B) (h : A → C) l :
  list_all A (λ x, agree (t x) (f x) (g (h x))) l →
  agree (forallb t l) (mapM f l) (mapM g (map h l)).
Proof.
  induction 1 as [|x Hx l _ IH]; simpl; [apply agree_refl|].
  apply agree_bind; [done|]. intros y.
  eapply agree_eq; [apply andb_true_r|].
  apply agree_bind; [exact IH|]. intros. apply agree_refl.
Qed.

Lemma agree_mapM_same {A B} (t : A → bool) (f g : A → M B) l :
  list_all A (λ x, agree (t x) (f x) (g x)) l →
  agree (forallb t l) (mapM f l) (mapM g l).
Proof.
  intros Hall. rewrite <- (map_id l) at 3. by apply (agree_mapM t f g id).
Qed.
End Agree.

Lemma agree_localizedSpans (ast1 ast2 : LocalizedStringOf (Context → M ts.Node))
    (bs : list bool) context1 context2 turns : ∀ i acc,
  serializeI18nTemplatePart ast1 = serializeI18nTemplatePart ast2 →
  Forall3 (λ b e1 e2, agree b (e1 context1) (e2 context2)) bs
    (expressions ast1) (expressions ast2) →
  agree (forallb id bs)
    (localizedSpans ast1 context1 (λ e c, e c) turns i acc)
    (localizedSpans ast2 context2 (λ e c, e c) turns i acc).
Proof.
  induction turns as [|turns IH]; intros i acc Hpart Hall; simpl.
  - intros _ s. done.
  - intros Hbs s. unfold bind, localizedSpan. rewrite Hpart.
    destruct (expressions ast1 !! (i - 1)) as [e1|] eqn:H1.
    + destruct (Forall3_lookup_m _ _ _ _ _ _ Hall H1) as (b & e2 & Hb & H2 & Hagree).
      rewrite H2. unfold bind.
      rewrite Hagree.
      2:{ rewrite forallb_forall in Hbs. apply (Hbs b).
          apply list_elem_of_In, list_elem_of_lookup. by exists (i - 1). }
      destruct (e2 context2 s) as [[n|e] s1]; [|done]. simpl.
      by apply IH.
    + assert (expressions ast2 !! (i - 1) = None) as ->; [|done].
      apply lookup_ge_None. apply lookup_ge_None in H1.
      apply Forall3_length_lr in Hall as Hlen. apply Forall3_length_lm in Hall. lia.
Qed.

Lemma agree_visitLocalizedString scriptTarget (ast1 ast2 : LocalizedStringOf Expression)
    (t : Expression → bool) (h : Expression → Expression) context1 context2 :
  messageParts ast2 = messageParts ast1 →
  serializeI18nHead ast2 = serializeI18nHead ast1 →
  serializeI18nTemplatePart ast2 = serializeI18nTemplatePart ast1 →
  expressions ast2 = map h (expressions ast1) →
  list_all Expression
    (λ e, agree (t e) (visitExpression scriptTarget e context1)
            (visitExpression scriptTarget (h e) context2)) (expressions ast1) →
  agree (forallb t (expressions ast1))
    (visitLocalizedStringExpr scriptTarget
       (dispatched (visitExpression scriptTarget) ast1) context1)
    (visitLocalizedStringExpr scriptTarget
       (dispatched (visitExpression scriptTarget) ast2) context2).
Proof.
  intros Hparts Hhead Hpart Hexprs Hall.
  unfold visitLocalizedStringExpr. case_bool_decide; [by intros _ s|].
  unfold visitLocalizedString. cbn [messageParts serializeI18nHead dispatched].
  rewrite Hparts, Hhead.
  eapply agree_eq; [apply andb_true_r|].
  apply agree_bind; [|intros; apply agree_refl].
  case_decide; [by intros _ s|].
  eapply agree_eq; [apply andb_true_r|].
  apply agree_bind; [|intros; apply agree_refl].
  eapply agree_eq;
    [|apply (agree_localizedSpans (dispatched (visitExpression scriptTarget) ast1)
               (dispatched (visitExpression scriptTarget) ast2)
               (map t (expressions ast1)) context1 context2)].
  - clear. induction (expressions ast1) as [|e l IH]; simpl; [done|]. by rewrite IH.
  - by simpl.
  - simpl. rewrite Hexprs. clear Hexprs.
    induction Hall as [|e He l _ IH]; simpl; constructor; done.
Qed.

Ltac agree_step :=
  first
    [ apply agree_refl
    | match goal with
      | H : ∀ c1 c2, agree _ (_ ?e c1) (_ ?e c2) |- agree _ (_ ?e _) (_ ?e _) => apply H
      end
    | apply agree_bind; [|intros]
    | apply agree_mapM_same; eapply list_all_weaken; [|eassumption]; cbn beta; intros ].

Ltac agree_body :=
  eapply agree_eq; [|repeat agree_step];
  rewrite ?andb_true_r, ?andb_assoc; reflexivity.

Lemma visit_contextFree (scriptTarget : ts.ScriptTarget) :
  (∀ ast context1 context2,
     agree (contextFree ast) (visitExpression scriptTarget ast context1)
       (visitExpression scriptTarget ast context2))
  ∧ (∀ stmt context1 context2,
       agree (contextFreeStmt stmt) (visitStatement scriptTarget stmt context1)
         (visitStatement scriptTarget stmt context2)).
Proof.
  apply Expression_Statement_ind; intros;
    cbn [visitExpression visitStatement contextFree contextFreeStmt].
  all: try apply agree_false.
  all: try (unfold visitReadVarExpr, visitWritePropExpr, visitInvokeMethodExpr,
              visitInvokeFunctionExpr, visitInstantiateExpr, visitLiteralExpr,
              visitExternalExpr, visitNotExpr, visitAssertNotNullExpr, visitCastExpr,
              visitFunctionExpr, visitReadPropExpr, visitReadKeyExpr,
              visitLiteralArrayExpr, visitCommaExpr, visitWrappedNodeExpr,
              visitTypeofExpr, visitDeclareClassStmt, visitTryCatchStmt,
              visitCommentStmt, visitJSDocCommentStmt;
            solve [agree_body]).
  - destruct H as [parts exprs Hall head part].
    apply (agree_visitLocalizedString scriptTarget _ _ contextFree id); try done.
    + simpl. by rewrite map_id.
    + simpl. eapply list_all_weaken; [|exact Hall]. cbn beta. auto.
  - unfold visitConditionalExpr. destruct H1 as [falseCase HfalseCase|]; agree_body.
  - unfold visitBinaryOperatorExpr.
    destruct (JsMap.get BINARY_OPERATORS operator); [agree_body|].
    by intros _ s.
  - unfold visitLiteralMapExpr.
    eapply agree_eq; [apply andb_true_r|].
    apply agree_bind; [|intros; apply agree_refl].
    induction H as [|entry Hentry entries' _ IH]; simpl; [apply agree_refl|].
    destruct Hentry as [key value Hvalue quoted]. simpl.
    apply agree_bind; [agree_body|]. intros property.
    eapply agree_eq; [apply andb_true_r|].
    apply agree_bind; [exact IH|]. intros. apply agree_refl.
  - unfold visitDeclareVarStmt. rewrite !withExpressionMode_constant. apply agree_refl.
  - unfold visitDeclareFunctionStmt. rewrite !withStatementMode_constant.
    apply agree_refl.
  - unfold visitExpressionStmt. rewrite !withStatementMode_constant. apply agree_refl.
  - unfold visitReturnStmt. rewrite !withExpressionMode_constant. apply agree_refl.
  - unfold visitIfStmt. rewrite !withStatementMode_constant.
    eapply agree_eq; [apply andb_true_r|].
    apply agree_bind; [apply H|]. intros. apply agree_refl.
  - unfold visitThrowStmt. rewrite !withExpressionMode_constant. apply agree_refl.
Qed.

(** X12.  The translation of an expression depends on the context only
    through write-variable and write-indexed expressions: an expression
    that has none of them where the incoming context reaches is
    translated to the same node, with the same effects, in statement mode
    and in expression mode. *)
Theorem visitExpression_context_free
    (scriptTarget : ts.ScriptTarget) (ast : Expression) (context1 context2 : Context)
    (s : VisitorState) :
  contextFree ast = true →
  visitExpression scriptTarget ast context1 s
  = visitExpression scriptTarget ast context2 s.
Proof. intros Hfree. by apply (proj1 (visit_contextFree scriptTarget)). Qed.

Lemma visitExpression_context_free_witness :
  let ast := InvokeFunctionExpr (ReadVarExpr "f" None) [assignAKX; literal1] true None in
  let s := newVisitor defaultImportManager in
  contextFree (ReadPropExpr threeReferences "length" None) = true
  ∧ visitExpression ts.ES2015 (ReadPropExpr threeReferences "length" None)
      (mkContext true) s
    = visitExpression ts.ES2015 (ReadPropExpr threeReferences "length" None)
        (mkContext false) s
  ∧ contextFree ast = false
  ∧ visitExpression ts.ES2015 ast (mkContext true) s
    ≠ visitExpression ts.ES2015 ast (mkContext false) s.
Proof.
  intros ast s. split_and!; [reflexivity | | reflexivity | discriminate].
  exact (visitExpression_context_free ts.ES2015
           (ReadPropExpr threeReferences "length" None)
           (mkContext true) (mkContext false) s eq_refl).
Defined.

(** ** Erased constructs *)

Lemma same_mapM {A B C} (f : A → M B) (g : C → M B) (h : A → C) l :
  list_all A (λ x, agree true (f x) (g (h x))) l →
  agree true (mapM f l) (mapM g (map h l)).
Proof.
  intros Hall. eapply agree_eq; [|apply (agree_mapM (λ _, true) f g h l Hall)].
  clear Hall. induction l as [|x l IH]; [reflexivity | exact IH].
Qed.

Lemma same_bind {A B} (m1 m2 : M A) (k1 k2 : A → M B) :
  agree true m1 m2 → (∀ a, agree true (k1 a) (k2 a)) →
  agree true (bind m1 k1) (bind m2 k2).
Proof. apply (agree_bind true true). Qed.

Lemma same_setSourceMapRange expr ast1 ast2 :
  sourceSpan ast1 = sourceSpan ast2 →
  agree true (setSourceMapRange expr ast1) (setSourceMapRange expr ast2).
Proof. intros Hspan _ s. unfold setSourceMapRange. by rewrite Hspan. Qed.

Ltac same_step :=
  first
    [ apply agree_refl
    | apply same_setSourceMapRange; reflexivity
    | match goal with
      | H : ∀ c, agree true (_ ?e c) _ |- agree true (_ ?e _) _ => apply H
      end
    | apply same_bind; [|intros]
    | apply same_mapM; eapply list_all_weaken; [|eassumption]; cbn beta; intros ].

Lemma visit_erase (scriptTarget : ts.ScriptTarget) :
  (∀ ast context,
     agree true (visitExpression scriptTarget ast context)
       (visitExpression scriptTarget (erase ast) context))
  ∧ (∀ stmt context,
       agree true (visitStatement scriptTarget stmt context)
         (visitStatement scriptTarget (eraseStmt stmt) context)).
Proof.
  apply Expression_Statement_ind; intros;
    cbn [visitExpression visitStatement erase eraseStmt].
  all: try (unfold visitReadVarExpr, visitWriteVarExpr, visitWriteKeyExpr,
              visitWritePropExpr, visitInvokeMethodExpr, visitInvokeFunctionExpr,
              visitInstantiateExpr, visitLiteralExpr, visitExternalExpr,
              visitNotExpr, visitAssertNotNullExpr, visitCastExpr, visitFunctionExpr,
              visitReadPropExpr, visitReadKeyExpr,
              visitLiteralArrayExpr, visitCommaExpr, visitWrappedNodeExpr,
              visitTypeofExpr, visitDeclareFunctionStmt, visitExpressionStmt,
              visitReturnStmt, visitDeclareClassStmt, visitTryCatchStmt,
              visitThrowStmt, visitCommentStmt, visitJSDocCommentStmt;
            solve [repeat same_step]).
  - destruct H as [parts exprs Hall head part].
    eapply agree_eq;
      [|apply (agree_visitLocalizedString scriptTarget _ _ (λ _, true) erase);
        try done].
    + simpl. clear. by induction exprs.
    + simpl. eapply list_all_weaken; [|exact Hall]. cbn beta. auto.
  - unfold visitConditionalExpr.
    destruct H1 as [falseCase HfalseCase|]; repeat same_step.
  - unfold visitBinaryOperatorExpr.
    destruct (JsMap.get BINARY_OPERATORS operator); repeat same_step.
  - unfold visitLiteralMapExpr.
    apply same_bind; [|intros; apply same_setSourceMapRange; reflexivity].
    induction H as [|entry Hentry entries' _ IH]; simpl; [apply agree_refl|].
    destruct Hentry as [key value Hvalue quoted]. simpl.
    apply same_bind; [repeat same_step|]. intros property.
    apply same_bind; [exact IH|]. intros. apply agree_refl.
  - unfold visitDeclareVarStmt.
    destruct H as [value Hvalue|]; simpl; repeat same_step.
  - unfold visitIfStmt. rewrite length_map. repeat same_step.
    case_bool_decide; repeat same_step.
Qed.

(** X13.  Type casts and non-null assertions leave no trace: removing
    every one of them from an expression or a statement, at any depth a
    visit reaches, changes neither the node produced (or the exception
    thrown) nor the final imports, source cache and recorded identifiers;
    not even a source span carried by the removed wrapper is used. *)
Theorem visit_erased_casts
    (scriptTarget : ts.ScriptTarget) (context : Context) (s : VisitorState) :
  (∀ ast, visitExpression scriptTarget (erase ast) context s
          = visitExpression scriptTarget ast context s)
  ∧ (∀ stmt, visitStatement scriptTarget (eraseStmt stmt) context s
             = visitStatement scriptTarget stmt context s).
Proof.
  split; intros; symmetry.
  - by apply (proj1 (visit_erase scriptTarget)).
  - by apply (proj2 (visit_erase scriptTarget)).
Qed.

Example erase_castSample :
  erase castSample
  = WritePropExpr (ReadVarExpr "a" None) "b" (ReadVarExpr "c" None) None.
Proof. reflexivity. Qed.
